(** * stringi: text statistics and break-iterator boundaries

    A shallow embedding of [src/stats.cpp] ([stri_stats_general],
    [stri_stats_latex]) and of [src/stri_search_other_locate.cpp]
    ([stri_locate_boundaries], [stri_locate_words]).

    A character vector is a [list (option string)]: [None] is [NA_STRING],
    [Some cs] is a CHARSXP whose bytes are the characters of [cs].

    The counters of the statistics are C [int]s ([int* stats], lines 43 and
    115 of [stats.cpp]).  The loops are given twice: [stri_stats_general] and
    [stri_stats_latex] do the additions in [Z], which is what the program
    does as long as no counter passes 2^31 - 1; [stri_stats_general_int] and
    [stri_stats_latex_int] bring every addition back into the range of
    [int], modulo 2^32.  The two fail on the same inputs, and the record of
    the second is the record of the first taken into the range of [int]
    ([stri_stats_general_int_wrap], [stri_stats_latex_int_wrap]); on a vector
    of at most 2^31 - 1 elements and bytes they are the same. *)

From Stdlib Require Import ZArith Lia Ascii String Sorted.
From stdpp Require Import base strings list.

Local Open Scope Z_scope.

(** ** Failures

    [error(...)] in the statistics functions and [throw StriException(...)]
    in the boundary functions both abandon the whole call. *)

Inductive StriError : Type :=
| MSG__NEWLINE_FOUND
| DEBUG_this_shouldnt_happen
| MSG__INCORRECT_MATCH_OPTION
| ICU_status (status : Z).

Inductive Res (A : Type) : Type :=
| Ok (a : A)
| Error (e : StriError).
Arguments Ok {A} a.
Arguments Error {A} e.

(** ** The ICU services the statistics code calls

    ICU is a library, not a part of the repository.  [U8_NEXT] is a macro of
    [unicode/utf8.h]: it reads the byte at [i], post-increments [i], and only
    for a byte [>= 0x80] goes on to the multi-byte decoding, which is the
    field [U8_NEXT_multibyte] below (given the buffer, the index after the
    lead byte, the buffer length and the lead byte, it answers how many more
    bytes it consumed and the code point, negative for an ill-formed
    sequence).  The character properties are fields as well. *)

Record ICU : Type := {
  U8_NEXT_multibyte : string -> nat -> nat -> Z -> nat * Z;
  u_hasBinaryProperty_WHITE_SPACE : Z -> bool;
  u_isUAlphabetic : Z -> bool;
  u_isdigit : Z -> bool;
  u_ispunct : Z -> bool
}.

(** [(uint8_t)s[i]]; a CHARSXP is NUL-terminated, so the byte at the length
    is 0. *)
Definition uint8_at (s : string) (i : nat) : Z :=
  match String.get i s with
  | Some a => Z.of_N (N_of_ascii a)
  | None => 0
  end.

Definition U8_NEXT (icu : ICU) (s : string) (i len : nat) : nat * Z :=
  let c := uint8_at s i in
  if c <? 128 then (S i, c)
  else let '(k, c') := U8_NEXT_multibyte icu s (S i) len c in
       (S i + k, c')%nat.

(** [strncmp(cs + j, lit, n) == 0] for a literal [lit] of [n] non-NUL
    characters: the [n] bytes from [j] are those of [lit] (a text that ends
    earlier meets its terminating NUL first and differs). *)
Definition strncmp_eq (cs : string) (j : nat) (lit : string) (n : nat) : bool :=
  String.eqb (String.substring j n cs) lit.

(** ** [stri_stats_general] *)

(** The four counters, [stats[0]] to [stats[3]].  They are C [int]s; their
    values are given as integers, which [stri_stats_general_int] keeps in
    the range of [int].  *)
Record GeneralStats : Type := mkGeneralStats {
  gsNumLines : Z;
  gsNumLinesNonEmpty : Z;
  gsNumChars : Z;
  gsNumCharsNonWhite : Z
}.

Definition gs_zero : GeneralStats := mkGeneralStats 0 0 0 0.

Definition gs_add (a b : GeneralStats) : GeneralStats :=
  mkGeneralStats (gsNumLines a + gsNumLines b)
                 (gsNumLinesNonEmpty a + gsNumLinesNonEmpty b)
                 (gsNumChars a + gsNumChars b)
                 (gsNumCharsNonWhite a + gsNumCharsNonWhite b).

Definition gs_incr_NumLines (s : GeneralStats) : GeneralStats :=
  mkGeneralStats (gsNumLines s + 1) (gsNumLinesNonEmpty s) (gsNumChars s)
                 (gsNumCharsNonWhite s).
Definition gs_incr_NumLinesNonEmpty (s : GeneralStats) : GeneralStats :=
  mkGeneralStats (gsNumLines s) (gsNumLinesNonEmpty s + 1) (gsNumChars s)
                 (gsNumCharsNonWhite s).
Definition gs_incr_NumChars (s : GeneralStats) : GeneralStats :=
  mkGeneralStats (gsNumLines s) (gsNumLinesNonEmpty s) (gsNumChars s + 1)
                 (gsNumCharsNonWhite s).
Definition gs_incr_NumCharsNonWhite (s : GeneralStats) : GeneralStats :=
  mkGeneralStats (gsNumLines s) (gsNumLinesNonEmpty s) (gsNumChars s)
                 (gsNumCharsNonWhite s + 1).

Section Stats.
Variable icu : ICU.

(** The inner loop [for (int j=0; j<cn; ) { U8_NEXT(cs, j, cn, c); ... }].
    Every turn advances [j] by at least one, so [cn - j] turns are enough;
    [fuel] counts them (see [general_scan_fuel]). *)
Fixpoint general_scan (fuel : nat) (cs : string) (cn j : nat)
    (AnyNonWhite : bool) (stats : GeneralStats) : Res (bool * GeneralStats) :=
  match fuel with
  | O => Ok (AnyNonWhite, stats)
  | S fuel' =>
      if (cn <=? j)%nat then Ok (AnyNonWhite, stats)
      else
        let '(j', c) := U8_NEXT icu cs j cn in
        if c =? 10 then Error MSG__NEWLINE_FOUND
        else
          let stats := gs_incr_NumChars stats in
          if negb (u_hasBinaryProperty_WHITE_SPACE icu c)
          then general_scan fuel' cs cn j' true (gs_incr_NumCharsNonWhite stats)
          else general_scan fuel' cs cn j' AnyNonWhite stats
  end.

(** The outer loop over the elements of [str]. *)
Fixpoint general_loop (str : list (option string)) (stats : GeneralStats)
    : Res GeneralStats :=
  match str with
  | [] => Ok stats
  | None :: rest => general_loop rest stats
  | Some curs :: rest =>
      let stats := gs_incr_NumLines stats in
      let cn := String.length curs in
      match general_scan cn curs cn 0 false stats with
      | Error e => Error e
      | Ok (AnyNonWhite, stats) =>
          general_loop rest
            (if AnyNonWhite then gs_incr_NumLinesNonEmpty stats else stats)
      end
  end.

Definition stri_stats_general (str : list (option string)) : Res GeneralStats :=
  general_loop str gs_zero.

End Stats.

(** ** [stri_stats_latex] *)

Inductive State : Type :=
| stStandard
| stComment
| stControlSequence
| stControlSymbol
| stCommand
| stEnvironment.

(** The six counters, [stats[0]] to [stats[5]], C [int]s as well. *)
Record LatexStats : Type := mkLatexStats {
  lsCharsWord : Z;
  lsCharsCmdEnvir : Z;
  lsCharsWhite : Z;
  lsWords : Z;
  lsCmd : Z;
  lsEnvir : Z
}.

Definition ls_zero : LatexStats := mkLatexStats 0 0 0 0 0 0.

Definition ls_add (a b : LatexStats) : LatexStats :=
  mkLatexStats (lsCharsWord a + lsCharsWord b)
               (lsCharsCmdEnvir a + lsCharsCmdEnvir b)
               (lsCharsWhite a + lsCharsWhite b)
               (lsWords a + lsWords b)
               (lsCmd a + lsCmd b)
               (lsEnvir a + lsEnvir b).

Definition ls_incr_CharsWord (s : LatexStats) : LatexStats :=
  mkLatexStats (lsCharsWord s + 1) (lsCharsCmdEnvir s) (lsCharsWhite s)
               (lsWords s) (lsCmd s) (lsEnvir s).
Definition ls_add_CharsCmdEnvir (n : Z) (s : LatexStats) : LatexStats :=
  mkLatexStats (lsCharsWord s) (lsCharsCmdEnvir s + n) (lsCharsWhite s)
               (lsWords s) (lsCmd s) (lsEnvir s).
Definition ls_incr_CharsWhite (s : LatexStats) : LatexStats :=
  mkLatexStats (lsCharsWord s) (lsCharsCmdEnvir s) (lsCharsWhite s + 1)
               (lsWords s) (lsCmd s) (lsEnvir s).
Definition ls_incr_Words (s : LatexStats) : LatexStats :=
  mkLatexStats (lsCharsWord s) (lsCharsCmdEnvir s) (lsCharsWhite s)
               (lsWords s + 1) (lsCmd s) (lsEnvir s).
Definition ls_incr_Cmd (s : LatexStats) : LatexStats :=
  mkLatexStats (lsCharsWord s) (lsCharsCmdEnvir s) (lsCharsWhite s)
               (lsWords s) (lsCmd s + 1) (lsEnvir s).
Definition ls_incr_Envir (s : LatexStats) : LatexStats :=
  mkLatexStats (lsCharsWord s) (lsCharsCmdEnvir s) (lsCharsWhite s)
               (lsWords s) (lsCmd s) (lsEnvir s + 1).

(** What the scan of one element carries from one turn of the loop to the
    next: the byte index [j], [state], [word] and the counters. *)
Record LatexCfg : Type := mkLatexCfg {
  lx_j : nat;
  lx_state : State;
  lx_word : bool;
  lx_stats : LatexStats
}.

Section Latex.
Variable icu : ICU.

(** The test after the look-ahead of a backslash read in [stStandard]:
    [!isPunctNext || cnext == '~' || cnext == '^']. *)
Definition closes_word (cnext : Z) : bool :=
  negb (u_ispunct icu cnext) || (cnext =? 126) || (cnext =? 94).

(** One turn of the loop over the bytes of [cs], entered with [lx_j < cn]. *)
Definition latex_step (cs : string) (cn : nat) (cfg : LatexCfg) : Res LatexCfg :=
  let '(j, c) := U8_NEXT icu cs (lx_j cfg) cn in
  let word := lx_word cfg in
  let stats := lx_stats cfg in
  if c =? 10 then Error MSG__NEWLINE_FOUND
  else
    let isLetter := u_isUAlphabetic icu c in
    let isNumber := u_isdigit icu c in
    match lx_state cfg with
    | stStandard =>
        if c =? 92 then
          let stats := ls_add_CharsCmdEnvir 1 stats in
          let word :=
            if (j <? cn)%nat then
              let '(_, cnext) := U8_NEXT icu cs j cn in
              if closes_word cnext then false else word
            else word in
          Ok (mkLatexCfg j stControlSequence word stats)
        else if c =? 37 then
          Ok (mkLatexCfg j stComment word stats)
        else if isLetter || isNumber then
          if isLetter && negb word
          then Ok (mkLatexCfg j stStandard true
                     (ls_incr_CharsWord (ls_incr_Words stats)))
          else Ok (mkLatexCfg j stStandard word (ls_incr_CharsWord stats))
        else
          Ok (mkLatexCfg j stStandard false (ls_incr_CharsWhite stats))
    | stControlSequence =>
        if isLetter then
          if (c =? 98) && strncmp_eq cs j "egin" 4 then
            Ok (mkLatexCfg (j + 4) stEnvironment word
                  (ls_add_CharsCmdEnvir 5 (ls_incr_Envir stats)))
          else if (c =? 101) && strncmp_eq cs j "nd" 2 then
            Ok (mkLatexCfg (j + 2) stEnvironment word
                  (ls_add_CharsCmdEnvir 3 stats))
          else
            Ok (mkLatexCfg j stCommand word
                  (ls_add_CharsCmdEnvir 1 (ls_incr_Cmd stats)))
        else
          Ok (mkLatexCfg j stStandard word
                (ls_add_CharsCmdEnvir 1 (ls_incr_Cmd stats)))
    | stCommand =>
        if isLetter then
          Ok (mkLatexCfg j stCommand word (ls_add_CharsCmdEnvir 1 stats))
        else if c =? 92 then
          Ok (mkLatexCfg j stControlSequence word (ls_add_CharsCmdEnvir 1 stats))
        else if c =? 37 then
          Ok (mkLatexCfg j stComment word stats)
        else
          Ok (mkLatexCfg j stStandard word (ls_incr_CharsWhite stats))
    | stEnvironment =>
        if c =? 125 then
          Ok (mkLatexCfg j stStandard word (ls_add_CharsCmdEnvir 1 stats))
        else if c =? 37 then
          Ok (mkLatexCfg j stComment word stats)
        else
          Ok (mkLatexCfg j stEnvironment word (ls_add_CharsCmdEnvir 1 stats))
    | stComment =>
        Ok (mkLatexCfg j stComment word stats)
    | stControlSymbol =>
        (* no [case] of the [switch] names it: the [default] branch *)
        Error DEBUG_this_shouldnt_happen
    end.

(** The loop [for (int j=0; j<cn; ) ...]; [fuel] as in [general_scan]. *)
Fixpoint latex_scan (fuel : nat) (cs : string) (cn : nat) (cfg : LatexCfg)
    : Res LatexCfg :=
  match fuel with
  | O => Ok cfg
  | S fuel' =>
      if (cn <=? lx_j cfg)%nat then Ok cfg
      else match latex_step cs cn cfg with
           | Error e => Error e
           | Ok cfg' => latex_scan fuel' cs cn cfg'
           end
  end.

(** The configurations the scan of [cs] goes through, from the one it is
    entered with. *)
Inductive latex_reaches (cs : string) (c0 : LatexCfg) : LatexCfg -> Prop :=
| reaches_start : latex_reaches cs c0 c0
| reaches_step cfg cfg' :
    latex_reaches cs c0 cfg ->
    (lx_j cfg < String.length cs)%nat ->
    latex_step cs (String.length cs) cfg = Ok cfg' ->
    latex_reaches cs c0 cfg'.

Fixpoint latex_loop (str : list (option string)) (stats : LatexStats)
    : Res LatexStats :=
  match str with
  | [] => Ok stats
  | None :: rest => latex_loop rest stats
  | Some curs :: rest =>
      let cn := String.length curs in
      match latex_scan cn curs cn (mkLatexCfg 0 stStandard false stats) with
      | Error e => Error e
      | Ok cfg => latex_loop rest (lx_stats cfg)
      end
  end.

Definition stri_stats_latex (str : list (option string)) : Res LatexStats :=
  latex_loop str ls_zero.

End Latex.

(** ** The counters as C [int]s

    [int* stats = INTEGER(ret)]: a counter is a 32-bit [int], and [++] on a
    counter that holds 2^31 - 1 leaves -2^31 in it.  [int32 z] is the [int]
    that holds the integer [z]. *)

Definition INT_MAX : Z := 2147483647.

Definition int32 (z : Z) : Z :=
  (z + 2147483648) mod 4294967296 - 2147483648.

Definition gs_int (s : GeneralStats) : GeneralStats :=
  mkGeneralStats (int32 (gsNumLines s)) (int32 (gsNumLinesNonEmpty s))
                 (int32 (gsNumChars s)) (int32 (gsNumCharsNonWhite s)).

Definition ls_int (s : LatexStats) : LatexStats :=
  mkLatexStats (int32 (lsCharsWord s)) (int32 (lsCharsCmdEnvir s))
               (int32 (lsCharsWhite s)) (int32 (lsWords s))
               (int32 (lsCmd s)) (int32 (lsEnvir s)).

Definition cfg_int (cfg : LatexCfg) : LatexCfg :=
  mkLatexCfg (lx_j cfg) (lx_state cfg) (lx_word cfg) (ls_int (lx_stats cfg)).

Section StatsInt.
Variable icu : ICU.

(** The inner loop of [stri_stats_general], as [general_scan], with
    [++stats[gsNumChars]] and [++stats[gsNumCharsNonWhite]] on [int]s. *)
Fixpoint general_scan_int (fuel : nat) (cs : string) (cn j : nat)
    (AnyNonWhite : bool) (stats : GeneralStats) : Res (bool * GeneralStats) :=
  match fuel with
  | O => Ok (AnyNonWhite, stats)
  | S fuel' =>
      if (cn <=? j)%nat then Ok (AnyNonWhite, stats)
      else
        let '(j', c) := U8_NEXT icu cs j cn in
        if c =? 10 then Error MSG__NEWLINE_FOUND
        else
          let stats := gs_int (gs_incr_NumChars stats) in
          if negb (u_hasBinaryProperty_WHITE_SPACE icu c)
          then general_scan_int fuel' cs cn j' true
                 (gs_int (gs_incr_NumCharsNonWhite stats))
          else general_scan_int fuel' cs cn j' AnyNonWhite stats
  end.

(** The outer loop, with [++stats[gsNumLines]] and
    [++stats[gsNumLinesNonEmpty]] on [int]s. *)
Fixpoint general_loop_int (str : list (option string)) (stats : GeneralStats)
    : Res GeneralStats :=
  match str with
  | [] => Ok stats
  | None :: rest => general_loop_int rest stats
  | Some curs :: rest =>
      let stats := gs_int (gs_incr_NumLines stats) in
      let cn := String.length curs in
      match general_scan_int cn curs cn 0 false stats with
      | Error e => Error e
      | Ok (AnyNonWhite, stats) =>
          general_loop_int rest
            (if AnyNonWhite then gs_int (gs_incr_NumLinesNonEmpty stats)
             else stats)
      end
  end.

Definition stri_stats_general_int (str : list (option string))
    : Res GeneralStats :=
  general_loop_int str gs_zero.

(** One turn of the loop of [stri_stats_latex] with the counters as [int]s.
    A turn adds to a counter at most once (1, 3 or 5), so that it is the
    turn of [latex_step] with the counters it leaves taken back into the
    range of [int]. *)
Definition latex_step_int (cs : string) (cn : nat) (cfg : LatexCfg)
    : Res LatexCfg :=
  match latex_step icu cs cn cfg with
  | Error e => Error e
  | Ok cfg' => Ok (cfg_int cfg')
  end.

Fixpoint latex_scan_int (fuel : nat) (cs : string) (cn : nat) (cfg : LatexCfg)
    : Res LatexCfg :=
  match fuel with
  | O => Ok cfg
  | S fuel' =>
      if (cn <=? lx_j cfg)%nat then Ok cfg
      else match latex_step_int cs cn cfg with
           | Error e => Error e
           | Ok cfg' => latex_scan_int fuel' cs cn cfg'
           end
  end.

Fixpoint latex_loop_int (str : list (option string)) (stats : LatexStats)
    : Res LatexStats :=
  match str with
  | [] => Ok stats
  | None :: rest => latex_loop_int rest stats
  | Some curs :: rest =>
      let cn := String.length curs in
      match latex_scan_int cn curs cn (mkLatexCfg 0 stStandard false stats) with
      | Error e => Error e
      | Ok cfg => latex_loop_int rest (lx_stats cfg)
      end
  end.

Definition stri_stats_latex_int (str : list (option string)) : Res LatexStats :=
  latex_loop_int str ls_zero.

End StatsInt.

(** ** The boundary functions of [stri_search_other_locate.cpp]

    ICU's [BreakIterator] is modelled as the object the code drives: an
    iterator created for a kind and a locale, to which [setText] binds a
    text, and whose [first()] and [next()] then walk the boundaries of that
    text.  Which boundaries ICU's rules find, and which status its calls
    report, are fields of [BreakEngine]: they are functions of the kind, the
    locale and the text.  Kinds are the indices of [boundary_opts]. *)

Record BreakEngine : Type := {
  createInstance_status : Z -> string -> Z;
  utext_openUTF8_status : string -> Z;
  setText_status : Z -> string -> string -> Z;
  (* the value of [first()] *)
  rules_first : Z -> string -> string -> Z;
  (* the values of the calls of [next()] that follow, each with the
     [getRuleStatus()] after it; [next()] answers [DONE] after the last *)
  rules_following : Z -> string -> string -> list (Z * Z)
}.

Definition U_FAILURE (status : Z) : bool := 0 <? status.
Definition BreakIterator_DONE : Z := -1.
Definition UBRK_WORD_NONE : Z := 0.

Record BreakIterator : Type := mkBreakIterator {
  bi_kind : Z;
  bi_locale : string;
  bi_first : Z;
  bi_pending : list (Z * Z)
}.

(** Helpers of the package that the two functions call and that are defined
    in other files of it: the recycling rule, the order in which
    [vectorize_init]/[vectorize_next]/[vectorize_end] of a container of [n]
    elements recycled to [nrecycle] visit the indices, [stri__match_arg], and
    the index conversion of [StriContainerUTF8_indexable] (given the text of
    the element, the intervals and the two adjustments). *)
Record Stringi : Type := {
  stri__recycling_rule : nat -> nat -> nat;
  vectorize_order : nat -> nat -> list nat;
  stri__match_arg : string -> list string -> Z;
  UTF8_to_UChar32_index : string -> list (Z * Z) -> Z -> Z -> list (Z * Z)
}.

(** Modelled from the spec: [StriContainerUTF8::get] and [isNA] are defined
    in another file of the package; "each element's boundary kind and
    corresponding text are selected by cyclic indexing under the recycling
    rule".  [None] is an NA element. *)
Definition StriContainer_get (v : list (option string)) (i : nat) : option string :=
  match v !! (i mod length v)%nat with
  | Some x => x
  | None => None
  end.

(** An element of the result list: not yet set, [stri__matrix_NA_INTEGER(1, 2)],
    or an integer matrix with two columns, given by its rows. *)
Inductive SEXP : Type :=
| R_NilValue
| matrix_NA_INTEGER_1_2
| IntMatrix (rows : list (Z * Z)).

(** The calls made on the break iterator and on the text it is bound to
    ([createXInstance], [utext_openUTF8], [setText]), in the order they are
    made, each with the index of the element it is made for ([None]: before
    the loop).  The program keeps no such record; it is there to state which
    of these calls are made.  [Locale::createFromName] (lines 62 and 190),
    which both functions call once before anything else on every call, and
    the calls of [first], [next] and [getRuleStatus], which [walked] stands
    for, are not recorded. *)
Inductive EngineCall : Type :=
| call_createInstance (i : option nat) (kind : Z)
| call_utext_openUTF8 (i : nat)
| call_setText (i : nat).

Record LocState : Type := mkLocState {
  briter : option BreakIterator;
  last_boundary : Z;
  ret : list SEXP;
  calls : list EngineCall
}.

(** How a call, or a turn of its loop, ends: normally, by a [throw] (with the
    state it is thrown in), or in no defined way ([briter->setText] on a
    [briter] that is [NULL], should [stri__match_arg] answer a number that no
    [case] of the [switch] names). *)
Inductive Outcome : Type :=
| Normal (st : LocState)
| Throw (e : StriError) (st : LocState)
| Undefined.

Definition boundary_opts : list string :=
  ["character"; "line-break"; "sentence"; "word"]%string.

(** [while ((match = briter->next()) != BreakIterator::DONE)] of
    [stri_locate_boundaries], over the values [next()] is still to give. *)
Fixpoint boundaries_loop (last_match : Z) (pending : list (Z * Z)) : list (Z * Z) :=
  match pending with
  | [] => []
  | (match_, _) :: rest =>
      if match_ =? BreakIterator_DONE then []
      else (last_match, match_) :: boundaries_loop match_ rest
  end.

(** The same loop in [stri_locate_words], with its test of the rule status. *)
Fixpoint words_loop (last_match : Z) (pending : list (Z * Z)) : list (Z * Z) :=
  match pending with
  | [] => []
  | (match_, breakType) :: rest =>
      if match_ =? BreakIterator_DONE then []
      else if negb (breakType =? UBRK_WORD_NONE)
           then (last_match, match_) :: words_loop match_ rest
           else words_loop match_ rest
  end.

(** The labels of the [case]s of [switch (boundary_cur)]: 0, 1, 2 and 3. *)
Definition kind_has_case (boundary_cur : Z) : bool :=
  (boundary_cur =? 0) || (boundary_cur =? 1) || (boundary_cur =? 2)
  || (boundary_cur =? 3).

Section Locate.
Variable eng : BreakEngine.
Variable sti : Stringi.

Definition setText (it : BreakIterator) (text : string) : BreakIterator :=
  mkBreakIterator (bi_kind it) (bi_locale it)
    (rules_first eng (bi_kind it) (bi_locale it) text)
    (rules_following eng (bi_kind it) (bi_locale it) text).

(** The iterator once the loop has walked it to [DONE]. *)
Definition walked (it : BreakIterator) : BreakIterator :=
  mkBreakIterator (bi_kind it) (bi_locale it) (bi_first it) [].

(** [switch (boundary_cur)]: the iterator and the status of the [case] taken,
    [None] when there is none. *)
Definition createInstance (boundary_cur : Z) (loc : string)
    : option (BreakIterator * Z) :=
  if kind_has_case boundary_cur
  then Some (mkBreakIterator boundary_cur loc 0 [],
             createInstance_status eng boundary_cur loc)
  else None.

(** [if (last_boundary != boundary_cur) { ... }] *)
Definition open_BreakIterator (loc : string) (i : nat) (boundary_cur : Z)
    (st : LocState) : Outcome :=
  if negb (last_boundary st =? boundary_cur) then
    let log := calls st ++ [call_createInstance (Some i) boundary_cur] in
    match createInstance boundary_cur loc with
    | Some (it, status) =>
        if U_FAILURE status
        then Throw (ICU_status status)
               (mkLocState None boundary_cur (ret st) log)
        else Normal (mkLocState (Some it) boundary_cur (ret st) log)
    | None => Normal (mkLocState None boundary_cur (ret st) (calls st))
    end
  else Normal st.

(** From "get the current string" to [SET_VECTOR_ELT(ret, i, ans)]; [loop]
    is the loop that collects the occurrences and [on_none] what is stored
    when there is none ([None]: the matrix of no rows). *)
Definition locate_in_text (loop : Z -> list (Z * Z) -> list (Z * Z))
    (on_none : option SEXP) (i : nat) (s : string) (st : LocState) : Outcome :=
  let log := calls st ++ [call_utext_openUTF8 i] in
  let status := utext_openUTF8_status eng s in
  if U_FAILURE status
  then Throw (ICU_status status)
         (mkLocState (briter st) (last_boundary st) (ret st) log)
  else
    match briter st with
    | None => Undefined
    | Some it =>
        let log := log ++ [call_setText i] in
        let status := setText_status eng (bi_kind it) (bi_locale it) s in
        if U_FAILURE status
        then Throw (ICU_status status)
               (mkLocState (briter st) (last_boundary st) (ret st) log)
        else
          let it := setText it s in
          let occurences := loop (bi_first it) (bi_pending it) in
          let ans :=
            match occurences, on_none with
            | [], Some x => x
            | _, _ => IntMatrix (UTF8_to_UChar32_index sti s occurences 1 0)
            end in
          Normal (mkLocState (Some (walked it)) (last_boundary st)
                    (<[i:=ans]> (ret st)) log)
    end.

(** The body of the loop of [stri_locate_boundaries] for the index [i]. *)
Definition locate_boundaries_body (str boundary : list (option string))
    (loc : string) (i : nat) (st : LocState) : Outcome :=
  match StriContainer_get str i, StriContainer_get boundary i with
  | Some s, Some b =>
      if (String.length s =? 0)%nat
      then Normal (mkLocState (briter st) (last_boundary st)
                     (<[i:=matrix_NA_INTEGER_1_2]> (ret st)) (calls st))
      else
        let boundary_cur := stri__match_arg sti b boundary_opts in
        if boundary_cur <? 0 then Throw MSG__INCORRECT_MATCH_OPTION st
        else
          match open_BreakIterator loc i boundary_cur st with
          | Normal st => locate_in_text boundaries_loop None i s st
          | o => o
          end
  | _, _ =>
      Normal (mkLocState (briter st) (last_boundary st)
                (<[i:=matrix_NA_INTEGER_1_2]> (ret st)) (calls st))
  end.

(** A loop over the indices [order], left at the first turn that does not
    end normally. *)
Fixpoint run_loop (body : nat -> LocState -> Outcome) (order : list nat)
    (st : LocState) : Outcome :=
  match order with
  | [] => Normal st
  | i :: rest =>
      match body i st with
      | Normal st' => run_loop body rest st'
      | o => o
      end
  end.

(** Before the loop: [briter = NULL], [last_boundary = -1], the result list
    allocated, no call on an iterator or a text made yet.  By then
    [Locale loc = Locale::createFromName(qloc)] (line 62) has made the
    locale from its name: it is stood for by that name, [locale], which is
    what the fields of the engine are looked up with. *)
Definition fresh_state (vectorize_length : nat) : LocState :=
  mkLocState None (-1) (replicate vectorize_length R_NilValue) [].

Definition stri_locate_boundaries (str boundary : list (option string))
    (locale : string) : Outcome :=
  let str_length := length str in
  let boundary_length := length boundary in
  let vectorize_length := stri__recycling_rule sti str_length boundary_length in
  run_loop (locate_boundaries_body str boundary locale)
    (vectorize_order sti boundary_length vectorize_length)
    (fresh_state vectorize_length).

(** The body of the loop of [stri_locate_words] for the index [i].  The
    function has one iterator, created before the loop, and no
    [last_boundary]: that field is carried along unchanged. *)
Definition locate_words_body (str : list (option string)) (i : nat)
    (st : LocState) : Outcome :=
  match StriContainer_get str i with
  | None =>
      Normal (mkLocState (briter st) (last_boundary st)
                (<[i:=matrix_NA_INTEGER_1_2]> (ret st)) (calls st))
  | Some s => locate_in_text words_loop (Some matrix_NA_INTEGER_1_2) i s st
  end.

Definition stri_locate_words (str : list (option string)) (locale : string)
    : Outcome :=
  let vectorize_length := length str in
  let status := createInstance_status eng 3 locale in
  let log := [call_createInstance None 3] in
  if U_FAILURE status
  then Throw (ICU_status status) (mkLocState None 3 [] log)
  else
    run_loop (locate_words_body str) (seq 0 vectorize_length)
      (mkLocState (Some (mkBreakIterator 3 locale 0 [])) 3
         (replicate vectorize_length R_NilValue) log).

End Locate.

(** ** Instances to evaluate the model with

    What ICU answers on ASCII: the letters are alphabetic, the digits are
    decimal digits, the characters of the general categories P* are
    punctuation ([$ + < = > ^ ` | ~] are symbols), and TAB..CR and the space
    are white space. *)

Definition ascii_isalpha (c : Z) : bool :=
  ((65 <=? c) && (c <=? 90)) || ((97 <=? c) && (c <=? 122)).
Definition ascii_isdigit (c : Z) : bool := (48 <=? c) && (c <=? 57).
Definition ascii_ispunct (c : Z) : bool :=
  ((33 <=? c) && (c <=? 35)) || ((37 <=? c) && (c <=? 42))
  || ((44 <=? c) && (c <=? 47)) || (c =? 58) || (c =? 59) || (c =? 63)
  || (c =? 64) || ((91 <=? c) && (c <=? 93)) || (c =? 95) || (c =? 123)
  || (c =? 125).
Definition ascii_iswhite (c : Z) : bool :=
  ((9 <=? c) && (c <=? 13)) || (c =? 32).

Definition is_trail (b : Z) : bool := (128 <=? b) && (b <=? 191).

(** Up to [n] trail bytes from [i], folded into [acc]. *)
Fixpoint utf8_trail (s : string) (i n : nat) (acc : Z) : nat * Z :=
  match n with
  | O => (O, acc)
  | S n' =>
      let b := uint8_at s i in
      if is_trail b then
        let '(k, c) := utf8_trail s (S i) n' (acc * 64 + (b - 128)) in (S k, c)
      else (O, -1)
  end.

(** A plain decoder of the sequences of two to four bytes; an ill-formed or
    over-long sequence gives [-1]. *)
Definition utf8_multibyte (s : string) (i len : nat) (c : Z) : nat * Z :=
  let '(k, c') :=
    if (194 <=? c) && (c <=? 223) then utf8_trail s i 1 (c - 192)
    else if (224 <=? c) && (c <=? 239) then utf8_trail s i 2 (c - 224)
    else if (240 <=? c) && (c <=? 244) then utf8_trail s i 3 (c - 240)
    else (O, -1) in
  (k, if c' <? 128 then -1 else c').

(** The character properties on ASCII, nothing beyond it. *)
Definition icu_ascii : ICU := {|
  U8_NEXT_multibyte := utf8_multibyte;
  u_hasBinaryProperty_WHITE_SPACE := ascii_iswhite;
  u_isUAlphabetic := ascii_isalpha;
  u_isdigit := ascii_isdigit;
  u_ispunct := ascii_ispunct
|}.

(** A small break engine: for the kind 3 (word) the boundaries lie where
    runs of spaces and runs of other bytes meet, a run of spaces having the
    rule status [UBRK_WORD_NONE] and any other run 200; for the kind 0
    (character) there is a boundary after every byte; for the other kinds
    the text is one piece.  No call fails. *)
Definition is_space (a : ascii) : bool := (N_of_ascii a =? 32)%N.

Fixpoint word_breaks (s : string) (pos : Z) : list (Z * Z) :=
  match s with
  | EmptyString => []
  | String a rest =>
      let tag := if is_space a then UBRK_WORD_NONE else 200 in
      match rest with
      | EmptyString => [(pos + 1, tag)]
      | String b _ =>
          if Bool.eqb (is_space a) (is_space b) then word_breaks rest (pos + 1)
          else (pos + 1, tag) :: word_breaks rest (pos + 1)
      end
  end.

Fixpoint char_breaks (s : string) (pos : Z) : list (Z * Z) :=
  match s with
  | EmptyString => []
  | String _ rest => (pos + 1, 0) :: char_breaks rest (pos + 1)
  end.

Definition toy_engine : BreakEngine := {|
  createInstance_status := fun _ _ => 0;
  utext_openUTF8_status := fun _ => 0;
  setText_status := fun _ _ _ => 0;
  rules_first := fun _ _ _ => 0;
  rules_following := fun kind _ text =>
    if kind =? 3 then word_breaks text 0
    else if kind =? 0 then char_breaks text 0
    else match text with
         | EmptyString => []
         | _ => [(Z.of_nat (String.length text), 0)]
         end
|}.

Fixpoint index_of (x : string) (set : list string) (k : Z) : Z :=
  match set with
  | [] => -1
  | y :: rest => if String.eqb x y then k else index_of x rest (k + 1)
  end.

(** Modelled from the spec: the recycling rule, the order of the loop and
    [stri__match_arg] are defined in other files of the package.
    "[recycle(3, 1) == 3]"; "a batch call processes elements strictly in
    index order"; "accepted [BoundaryKind] labels: ["character"],
    ["line-break"], ["sentence"], ["word"]; any other label fails".  The
    index conversion is the one of a text of ASCII characters, where a byte
    offset is a code point index and only the two adjustments are added. *)
Definition spec_stringi : Stringi := {|
  stri__recycling_rule := fun a b =>
    if ((a =? 0) || (b =? 0))%nat then O else Nat.max a b;
  vectorize_order := fun _ nrecycle => seq 0 nrecycle;
  stri__match_arg := fun option_ set => index_of option_ set 0;
  UTF8_to_UChar32_index := fun _ occ adj1 adj2 =>
    map (fun '(a, b) => (a + adj1, b + adj2)) occ
|}.

(** The character with the code [n], for the texts of the examples. *)
Definition chr (n : nat) : string := String (ascii_of_nat n) EmptyString.

(** * Notions the statements use *)

(** ICU's multi-byte decoding consumes trail bytes only, [0x80..0xBF]. *)
Definition consumes_trail_bytes (icu : ICU) : Prop :=
  forall s i len c k c',
    U8_NEXT_multibyte icu s i len c = (k, c') ->
    forall m, (i <= m < i + k)%nat -> 128 <= uint8_at s m.

(** ICU's character properties on ASCII. *)
Definition agrees_on_ascii (icu : ICU) : Prop :=
  forall c, 0 <= c < 128 ->
    u_isUAlphabetic icu c = ascii_isalpha c /\
    u_isdigit icu c = ascii_isdigit c /\
    u_ispunct icu c = ascii_ispunct c.

(** The text has a line feed: the byte [0x0A], which in UTF-8 stands for
    U+000A and for nothing else. *)
Definition contains_LF (cs : string) : Prop :=
  exists p, String.get p cs = Some "010"%char.

Definition is_ascii_text (cs : string) : Prop :=
  forall i, 0 <= uint8_at cs i < 128.

(** [bind]-like combination of the results of two calls: the first failure,
    or the sum of the two records. *)
Definition res_add {A : Type} (add : A -> A -> A) (a b : Res A) : Res A :=
  match a, b with
  | Ok x, Ok y => Ok (add x y)
  | Error e, _ => Error e
  | Ok _, Error e => Error e
  end.

Definition res_map {A B : Type} (f : A -> B) (a : Res A) : Res B :=
  match a with
  | Ok x => Ok (f x)
  | Error e => Error e
  end.

(** The sum of two records of [int]s. *)
Definition gs_add_int (a b : GeneralStats) : GeneralStats := gs_int (gs_add a b).
Definition ls_add_int (a b : LatexStats) : LatexStats := ls_int (ls_add a b).

Definition not_NA (x : option string) : bool :=
  match x with Some _ => true | None => false end.

Ltac stats_eq :=
  unfold gs_add, gs_incr_NumLines, gs_incr_NumLinesNonEmpty, gs_incr_NumChars,
    gs_incr_NumCharsNonWhite, gs_zero, ls_add, ls_incr_CharsWord,
    ls_add_CharsCmdEnvir, ls_incr_CharsWhite, ls_incr_Words, ls_incr_Cmd,
    ls_incr_Envir, ls_zero;
  simpl; f_equal; lia.

Definition shift_cfg (st : LatexStats) (cfg : LatexCfg) : LatexCfg :=
  mkLatexCfg (lx_j cfg) (lx_state cfg) (lx_word cfg) (ls_add st (lx_stats cfg)).

Fixpoint all_ascii (cs : string) : bool :=
  match cs with
  | EmptyString => true
  | String a rest => (N_of_ascii a <? 128)%N && all_ascii rest
  end.

(** The intervals between one boundary and the next, each with the rule
    status of the boundary that ends it: what the two loops choose from. *)
Fixpoint candidates (last_match : Z) (pending : list (Z * Z))
    : list ((Z * Z) * Z) :=
  match pending with
  | [] => []
  | (match_, breakType) :: rest =>
      if match_ =? BreakIterator_DONE then []
      else ((last_match, match_), breakType) :: candidates match_ rest
  end.

Definition is_word (c : (Z * Z) * Z) : bool := negb (snd c =? UBRK_WORD_NONE).





(** The boundaries of the engine do not go backwards. *)
Fixpoint ascending_from (last_match : Z) (pending : list (Z * Z)) : Prop :=
  match pending with
  | [] => True
  | (match_, _) :: rest => last_match <= match_ /\ ascending_from match_ rest
  end.

Definition ascending (eng : BreakEngine) : Prop :=
  forall kind loc text,
    ascending_from (rules_first eng kind loc text)
                   (rules_following eng kind loc text).

Definition call_index (c : EngineCall) : option nat :=
  match c with
  | call_createInstance i _ => i
  | call_utext_openUTF8 i => Some i
  | call_setText i => Some i
  end.

(** The element is one the loop of [stri_locate_boundaries] passes over:
    [str_cont.isNA(i) || boundary_cont.isNA(i) || str_cont.get(i).length() == 0]. *)
Definition passed_over (str boundary : list (option string)) (i : nat) : Prop :=
  StriContainer_get str i = None \/ StriContainer_get boundary i = None \/
  StriContainer_get str i = Some EmptyString.

(** What one element comes to: a value stored at its index, a [throw], or
    the undefined case. *)
Inductive Element : Type :=
| el_value (x : SEXP)
| el_throw (e : StriError)
| el_undefined.

(** The texts of the examples. *)
Definition text_ab_LF_cd : string := String.append "ab" (String.append (chr 10) "cd").
Definition text_begin_end : string := "\begin{equation}x\end{equation}".
Definition text_Kahler : string := String.append "K\" (String.append (chr 34) "ahler").
Definition text_xegin : string := "\xegin{a}".

(** The batch of the example: the kinds [word; word; sentence; word]. *)
Definition batch_texts : list (option string) :=
  [Some "ab cd"; Some "e"; Some "xy"; Some "q r"]%string.
Definition batch_kinds : list (option string) :=
  [Some "word"; Some "word"; Some "sentence"; Some "word"]%string.

(** ICU's multi-byte decoding never gives U+000A: a well-formed sequence of
    several bytes stands for a code point from U+0080 on, an ill-formed one
    gives a negative value. *)
Definition multibyte_not_LF (icu : ICU) : Prop :=
  forall s i len c k c',
    U8_NEXT_multibyte icu s i len c = (k, c') -> c' <> 10.

(** No byte of the text is [b]. *)
Definition no_byte (b : Z) (cs : string) : Prop :=
  forall i, uint8_at cs i <> b.

(** The number of bytes of [cs] that satisfy [P]. *)
Fixpoint count_bytes (P : Z -> bool) (cs : string) : Z :=
  match cs with
  | EmptyString => 0
  | String a rest =>
      (if P (Z.of_N (N_of_ascii a)) then 1 else 0) + count_bytes P rest
  end.

(** The number of non-NA elements, and the number of their bytes. *)
Fixpoint count_texts (str : list (option string)) : Z :=
  match str with
  | [] => 0
  | None :: rest => count_texts rest
  | Some _ :: rest => 1 + count_texts rest
  end.

Fixpoint total_bytes (str : list (option string)) : Z :=
  match str with
  | [] => 0
  | None :: rest => total_bytes rest
  | Some cs :: rest => Z.of_nat (String.length cs) + total_bytes rest
  end.

(** The vector is one whose counts an [int] holds: at most 2^31 - 1 non-NA
    elements, and at most 2^31 - 1 bytes in them. *)
Definition counts_fit_int (str : list (option string)) : Prop :=
  count_texts str <= INT_MAX /\ total_bytes str <= INT_MAX.

(** The record of a vector of ASCII texts, read off the bytes: a line per
    non-NA element, a non-empty line per element with a byte that is not
    white space, a character per byte. *)
Fixpoint general_stats_of_bytes (icu : ICU) (str : list (option string))
    : GeneralStats :=
  match str with
  | [] => gs_zero
  | None :: rest => general_stats_of_bytes icu rest
  | Some cs :: rest =>
      let nw :=
        count_bytes (fun c => negb (u_hasBinaryProperty_WHITE_SPACE icu c)) cs in
      gs_add (mkGeneralStats 1 (if 0 <? nw then 1 else 0)
                (Z.of_nat (String.length cs)) nw)
             (general_stats_of_bytes icu rest)
  end.

(** The characters the LaTeX statistics have counted, of any sort. *)
Definition ls_chars (s : LatexStats) : Z :=
  lsCharsWord s + lsCharsCmdEnvir s + lsCharsWhite s.

Definition is_createInstance (c : EngineCall) : bool :=
  match c with
  | call_createInstance _ _ => true
  | _ => false
  end.

(** Each interval ends before or where the next one starts. *)
Fixpoint disjoint_from (bound : Z) (occ : list (Z * Z)) : Prop :=
  match occ with
  | [] => True
  | (a, b) :: rest => bound <= a /\ a <= b /\ disjoint_from b rest
  end.

Ltac ls_unfold :=
  unfold ls_chars, ls_incr_CharsWord, ls_add_CharsCmdEnvir, ls_incr_CharsWhite,
    ls_incr_Words, ls_incr_Cmd, ls_incr_Envir in *;
  simpl in *.

(** With one kind [k] asked for throughout, at most one iterator has been
    created at any point of the loop. *)
Definition one_creation (k : Z) (st : LocState) : Prop :=
  (last_boundary st = -1 /\ List.filter is_createInstance (calls st) = []) \/
  (last_boundary st = k /\
   (length (List.filter is_createInstance (calls st)) <= 1)%nat).

Section LocateNotions.
Variable eng : BreakEngine.
Variable sti : Stringi.

(** What the code from "get the current string" on stores for the text [s],
    with an iterator of the kind [k] and the locale [loc]. *)
Definition text_element (loop : Z -> list (Z * Z) -> list (Z * Z))
    (on_none : option SEXP) (k : Z) (loc s : string) : Element :=
  if U_FAILURE (utext_openUTF8_status eng s)
  then el_throw (ICU_status (utext_openUTF8_status eng s))
  else if U_FAILURE (setText_status eng k loc s)
  then el_throw (ICU_status (setText_status eng k loc s))
  else
    let occurences := loop (rules_first eng k loc s) (rules_following eng k loc s) in
    el_value match occurences, on_none with
             | [], Some x => x
             | _, _ => IntMatrix (UTF8_to_UChar32_index sti s occurences 1 0)
             end.

(** What an element of [stri_locate_boundaries] comes to when an iterator is
    created for it alone. *)
Definition boundaries_element (loc : string) (s b : option string) : Element :=
  match s, b with
  | Some s, Some b =>
      if (String.length s =? 0)%nat then el_value matrix_NA_INTEGER_1_2
      else
        let k := stri__match_arg sti b boundary_opts in
        if k <? 0 then el_throw MSG__INCORRECT_MATCH_OPTION
        else if kind_has_case k then
          if U_FAILURE (createInstance_status eng k loc)
          then el_throw (ICU_status (createInstance_status eng k loc))
          else text_element boundaries_loop None k loc s
        else if U_FAILURE (utext_openUTF8_status eng s)
        then el_throw (ICU_status (utext_openUTF8_status eng s))
        else el_undefined
  | _, _ => el_value matrix_NA_INTEGER_1_2
  end.

(** The iterator held between two turns is the one of [last_boundary] and
    of the locale of the call. *)
Definition iterator_for (loc : string) (st : LocState) : Prop :=
  match briter st with
  | Some it =>
      bi_kind it = last_boundary st /\ bi_locale it = loc /\
      kind_has_case (last_boundary st) = true /\
      U_FAILURE (createInstance_status eng (last_boundary st) loc) = false
  | None => kind_has_case (last_boundary st) = false
  end.

(** How a turn that ends in [o] relates to the element [el] it is for:
    a value is stored at [i] and the loop goes on, or the turn ends as the
    element does. *)
Definition turn_agrees (P : LocState -> Prop) (i : nat) (st : LocState)
    (o : Outcome) (el : Element) : Prop :=
  match el with
  | el_value x => exists st', o = Normal st' /\ P st' /\ ret st' = <[i:=x]> (ret st)
  | el_throw e => exists st', o = Throw e st'
  | el_undefined => o = Undefined
  end.

Definition outcome_state (o : Outcome) : option LocState :=
  match o with
  | Normal st | Throw _ st => Some st
  | Undefined => None
  end.

Definition words_element (loc : string) (s : option string) : Element :=
  match s with
  | None => el_value matrix_NA_INTEGER_1_2
  | Some s => text_element words_loop (Some matrix_NA_INTEGER_1_2) 3 loc s
  end.

Definition word_iterator (loc : string) (st : LocState) : Prop :=
  exists it, briter st = Some it /\ bi_kind it = 3 /\ bi_locale it = loc.

Definition is_StriException (e : StriError) : Prop :=
  e = MSG__INCORRECT_MATCH_OPTION \/ exists status, e = ICU_status status.

(** When an element of [stri_locate_boundaries] comes to a value. *)
Definition processed_well (str boundary : list (option string)) (loc : string)
    (i : nat) : Prop :=
  passed_over str boundary i \/
  exists s b,
    StriContainer_get str i = Some s /\ StriContainer_get boundary i = Some b /\
    let k := stri__match_arg sti b boundary_opts in
    0 <= k /\ kind_has_case k = true /\
    U_FAILURE (createInstance_status eng k loc) = false /\
    U_FAILURE (utext_openUTF8_status eng s) = false /\
    U_FAILURE (setText_status eng k loc s) = false.

End LocateNotions.

(** * Properties of the statistics functions *)

Lemma uint8_at_range s i : 0 <= uint8_at s i < 256.
Proof.
  unfold uint8_at. destruct (String.get i s) as [a|]; [|lia].
  pose proof (N_ascii_bounded a). lia.
Qed.

Lemma uint8_at_get s i a :
  String.get i s = Some a -> uint8_at s i = Z.of_N (N_of_ascii a).
Proof. unfold uint8_at. now intros ->. Qed.

Lemma get_lt s : forall i a, String.get i s = Some a -> (i < String.length s)%nat.
Proof.
  induction s as [|b s IH]; intros [|i] a H; simpl in *; try discriminate; try lia.
  apply IH in H. lia.
Qed.

Lemma substring_get (cs lit : string) (j n k : nat) :
  String.substring j n cs = lit -> (k < n)%nat ->
  String.get (j + k) cs = String.get k lit.
Proof.
  intros <- Hk. rewrite (substring_correct1 cs j n k Hk). f_equal. lia.
Qed.

Section StatsFacts.
Variable icu : ICU.

Lemma U8_NEXT_advances s i len :
  (i < fst (U8_NEXT icu s i len))%nat.
Proof.
  unfold U8_NEXT. destruct (uint8_at s i <? 128); [simpl; lia|].
  destruct (U8_NEXT_multibyte icu s (S i) len (uint8_at s i)); simpl; lia.
Qed.

Lemma U8_NEXT_ascii s i len :
  uint8_at s i < 128 -> U8_NEXT icu s i len = (S i, uint8_at s i).
Proof. intros H. unfold U8_NEXT. now apply Z.ltb_lt in H as ->. Qed.

(** A line feed ahead of the cursor is not jumped over. *)
Lemma U8_NEXT_stops_at_LF s i len p j c :
  consumes_trail_bytes icu ->
  uint8_at s p = 10 -> (i <= p)%nat ->
  U8_NEXT icu s i len = (j, c) ->
  (i = p /\ j = S p /\ c = 10) \/ (i < p /\ i < j <= p)%nat.
Proof.
  intros Htrail Hp Hip. unfold U8_NEXT.
  destruct (uint8_at s i <? 128) eqn:Hlt.
  - intros [= <- <-]. destruct (decide (i = p)) as [->|]; [left; auto | right; lia].
  - apply Z.ltb_ge in Hlt.
    destruct (U8_NEXT_multibyte icu s (S i) len (uint8_at s i)) as [k c'] eqn:Hm.
    intros [= <- <-]. right.
    assert (i <> p) by (intros ->; lia).
    split; [lia|]. split; [lia|].
    destruct (decide (S i + k <= p)%nat); [assumption|].
    pose proof (Htrail _ _ _ _ _ _ Hm p ltac:(lia)). lia.
Qed.

(** *** [general_scan] *)

Lemma general_scan_fuel cs cn : forall fuel fuel' j a st,
  (cn - j <= fuel)%nat -> (cn - j <= fuel')%nat ->
  general_scan icu fuel cs cn j a st = general_scan icu fuel' cs cn j a st.
Proof.
  induction fuel as [|fuel IH]; intros [|fuel'] j a st H H'; simpl; trivial.
  - assert ((cn <=? j)%nat = true) as -> by (apply Nat.leb_le; lia). trivial.
  - assert ((cn <=? j)%nat = true) as -> by (apply Nat.leb_le; lia). trivial.
  - destruct (cn <=? j)%nat eqn:E; trivial. apply Nat.leb_gt in E.
    pose proof (U8_NEXT_advances cs j cn) as Hadv.
    destruct (U8_NEXT icu cs j cn) as [j' c]; simpl in Hadv.
    destruct (c =? 10); trivial.
    destruct (negb _); apply IH; lia.
Qed.

Lemma general_scan_error fuel cs cn : forall j a st e,
  general_scan icu fuel cs cn j a st = Error e -> e = MSG__NEWLINE_FOUND.
Proof.
  induction fuel as [|fuel IH]; intros j a st e; simpl; [discriminate|].
  destruct (cn <=? j)%nat; [discriminate|].
  destruct (U8_NEXT icu cs j cn) as [j' c].
  destruct (c =? 10); [congruence|].
  destruct (negb _); apply IH.
Qed.

Lemma general_scan_LF (Htrail : consumes_trail_bytes icu) cs cn p :
  uint8_at cs p = 10 -> (p < cn)%nat ->
  forall fuel j a st, (j <= p)%nat -> (cn - j <= fuel)%nat ->
  general_scan icu fuel cs cn j a st = Error MSG__NEWLINE_FOUND.
Proof.
  intros Hp Hpcn. induction fuel as [|fuel IH]; intros j a st Hj Hf; [lia|].
  simpl. assert ((cn <=? j)%nat = false) as -> by (apply Nat.leb_gt; lia).
  destruct (U8_NEXT icu cs j cn) as [j' c] eqn:Hn.
  destruct (U8_NEXT_stops_at_LF _ _ _ _ _ _ Htrail Hp Hj Hn) as [(_ & _ & ->)|[? ?]];
    [reflexivity|].
  destruct (c =? 10); trivial.
  destruct (negb _); apply IH; lia.
Qed.

Lemma general_loop_error str : forall st e,
  general_loop icu str st = Error e -> e = MSG__NEWLINE_FOUND.
Proof.
  induction str as [|[cs|] str IH]; intros st e; simpl; [discriminate| |apply IH].
  destruct (general_scan _ _ _ _ _ _ _) as [[a st']|e'] eqn:Hs.
  - apply IH.
  - intros [= <-]. eapply general_scan_error, Hs.
Qed.

Lemma general_loop_LF (Htrail : consumes_trail_bytes icu) str cs :
  In (Some cs) str -> contains_LF cs ->
  forall st, general_loop icu str st = Error MSG__NEWLINE_FOUND.
Proof.
  intros Hin [p Hp].
  pose proof (get_lt _ _ _ Hp) as Hlt. apply uint8_at_get in Hp. simpl in Hp.
  induction str as [|[cs'|] str IH]; intros st; simpl; [destruct Hin| |].
  - destruct Hin as [[= ->]|Hin].
    + rewrite (general_scan_LF Htrail cs _ p); trivial; lia.
    + destruct (general_scan _ _ _ _ _ _ _) as [[a st']|e'] eqn:Hs; [now apply IH|].
      f_equal. eapply general_scan_error, Hs.
  - destruct Hin as [[=]|Hin]. now apply IH.
Qed.

End StatsFacts.

Lemma strncmp_eq_skip cs j lit n p :
  strncmp_eq cs j lit n = true ->
  (forall k, (k < n)%nat -> uint8_at lit k <> 10) ->
  uint8_at cs p = 10 -> (j <= p)%nat -> (j + n <= p)%nat.
Proof.
  unfold strncmp_eq. intros H Hlit Hp Hj. apply String.eqb_eq in H.
  destruct (decide (j + n <= p)%nat); trivial. exfalso.
  apply (Hlit (p - j)%nat); [lia|]. unfold uint8_at in *.
  rewrite <- (substring_get cs lit j n (p - j) H) by lia.
  replace (j + (p - j))%nat with p by lia. exact Hp.
Qed.

Lemma egin_no_LF k : (k < 4)%nat -> uint8_at "egin" k <> 10.
Proof. intros H. do 4 (destruct k as [|k]; [discriminate|]). lia. Qed.

Lemma nd_no_LF k : (k < 2)%nat -> uint8_at "nd" k <> 10.
Proof. intros H. do 2 (destruct k as [|k]; [discriminate|]). lia. Qed.

Section LatexFacts.
Variable icu : ICU.

Lemma latex_step_advances cs cn cfg cfg' :
  latex_step icu cs cn cfg = Ok cfg' -> (lx_j cfg < lx_j cfg')%nat.
Proof.
  unfold latex_step. pose proof (U8_NEXT_advances icu cs (lx_j cfg) cn) as H.
  destruct (U8_NEXT icu cs (lx_j cfg) cn) as [j c]. simpl in H.
  intros Hs. repeat case_match; simplify_eq; simpl; lia.
Qed.

(** No turn of the loop leaves the machine in [stControlSymbol]. *)
Lemma latex_step_state cs cn cfg cfg' :
  latex_step icu cs cn cfg = Ok cfg' -> lx_state cfg' <> stControlSymbol.
Proof.
  unfold latex_step. destruct (U8_NEXT icu cs (lx_j cfg) cn) as [j c].
  intros Hs. repeat case_match; simplify_eq; simpl; discriminate.
Qed.

Lemma latex_step_error cs cn cfg e :
  lx_state cfg <> stControlSymbol ->
  latex_step icu cs cn cfg = Error e -> e = MSG__NEWLINE_FOUND.
Proof.
  unfold latex_step. destruct (U8_NEXT icu cs (lx_j cfg) cn) as [j c].
  intros Hst Hs. repeat case_match; simplify_eq; congruence.
Qed.

Lemma latex_step_LF (Htrail : consumes_trail_bytes icu) cs cn cfg p :
  uint8_at cs p = 10 -> (lx_j cfg <= p)%nat ->
  lx_state cfg <> stControlSymbol ->
  latex_step icu cs cn cfg = Error MSG__NEWLINE_FOUND \/
  exists cfg', latex_step icu cs cn cfg = Ok cfg' /\ (lx_j cfg' <= p)%nat.
Proof.
  intros Hp Hj Hst. unfold latex_step.
  destruct (U8_NEXT icu cs (lx_j cfg) cn) as [j c] eqn:Hn.
  destruct (U8_NEXT_stops_at_LF _ _ _ _ _ _ _ Htrail Hp Hj Hn) as [(_ & _ & ->)|[? ?]];
    [now left|].
  destruct (c =? 10); [now left|]. right.
  destruct (lx_state cfg); try congruence;
    repeat case_match; eexists; (split; [reflexivity|]); simpl; try lia.
  - match goal with H : _ && strncmp_eq _ _ _ _ = true |- _ =>
      apply andb_prop in H as [_ H] end.
    eapply strncmp_eq_skip; eauto using egin_no_LF. lia.
  - match goal with H : _ && strncmp_eq _ _ "nd" _ = true |- _ =>
      apply andb_prop in H as [_ H] end.
    eapply strncmp_eq_skip; eauto using nd_no_LF. lia.
Qed.

Lemma latex_scan_fuel cs cn : forall fuel fuel' cfg,
  (cn - lx_j cfg <= fuel)%nat -> (cn - lx_j cfg <= fuel')%nat ->
  latex_scan icu fuel cs cn cfg = latex_scan icu fuel' cs cn cfg.
Proof.
  induction fuel as [|fuel IH]; intros [|fuel'] cfg H H'; simpl; trivial.
  - assert ((cn <=? lx_j cfg)%nat = true) as -> by (apply Nat.leb_le; lia). trivial.
  - assert ((cn <=? lx_j cfg)%nat = true) as -> by (apply Nat.leb_le; lia). trivial.
  - destruct (cn <=? lx_j cfg)%nat eqn:E; trivial. apply Nat.leb_gt in E.
    destruct (latex_step icu cs cn cfg) as [cfg'|e] eqn:Hs; trivial.
    apply latex_step_advances in Hs. apply IH; lia.
Qed.

(** With the fuel [stri_stats_latex] gives it, the scan ends because the
    condition [j < cn] of the loop fails. *)
Lemma latex_scan_exit cs cn : forall fuel cfg cfg',
  (cn - lx_j cfg <= fuel)%nat ->
  latex_scan icu fuel cs cn cfg = Ok cfg' -> (cn <= lx_j cfg')%nat.
Proof.
  induction fuel as [|fuel IH]; intros cfg cfg' Hf; simpl.
  - intros [= <-]. lia.
  - destruct (cn <=? lx_j cfg)%nat eqn:E.
    + intros [= <-]. now apply Nat.leb_le.
    + apply Nat.leb_gt in E.
      destruct (latex_step icu cs cn cfg) as [cfg1|e] eqn:Hs; [|discriminate].
      apply latex_step_advances in Hs. apply IH. lia.
Qed.

Lemma latex_scan_state cs cn : forall fuel cfg cfg',
  lx_state cfg <> stControlSymbol ->
  latex_scan icu fuel cs cn cfg = Ok cfg' -> lx_state cfg' <> stControlSymbol.
Proof.
  induction fuel as [|fuel IH]; intros cfg cfg' Hst; simpl; [congruence|].
  destruct (cn <=? lx_j cfg)%nat; [congruence|].
  destruct (latex_step icu cs cn cfg) as [cfg1|e] eqn:Hs; [|discriminate].
  apply IH. eapply latex_step_state, Hs.
Qed.

Lemma latex_scan_error cs cn : forall fuel cfg e,
  lx_state cfg <> stControlSymbol ->
  latex_scan icu fuel cs cn cfg = Error e -> e = MSG__NEWLINE_FOUND.
Proof.
  induction fuel as [|fuel IH]; intros cfg e Hst; simpl; [discriminate|].
  destruct (cn <=? lx_j cfg)%nat; [discriminate|].
  destruct (latex_step icu cs cn cfg) as [cfg1|e1] eqn:Hs.
  - apply IH. eapply latex_step_state, Hs.
  - intros [= <-]. eapply latex_step_error; eauto.
Qed.

Lemma latex_scan_LF (Htrail : consumes_trail_bytes icu) cs cn p :
  uint8_at cs p = 10 -> (p < cn)%nat ->
  forall fuel cfg, (lx_j cfg <= p)%nat -> (cn - lx_j cfg <= fuel)%nat ->
  lx_state cfg <> stControlSymbol ->
  latex_scan icu fuel cs cn cfg = Error MSG__NEWLINE_FOUND.
Proof.
  intros Hp Hpcn. induction fuel as [|fuel IH]; intros cfg Hj Hf Hst; [lia|].
  simpl. assert ((cn <=? lx_j cfg)%nat = false) as -> by (apply Nat.leb_gt; lia).
  destruct (latex_step_LF Htrail cs cn cfg p Hp Hj Hst) as [->|(cfg' & Hs & Hj')];
    trivial.
  rewrite Hs. pose proof (latex_step_advances _ _ _ _ Hs).
  apply IH; [lia|lia|]. eapply latex_step_state, Hs.
Qed.

(** The [default] branch of the [switch] is never taken. *)
Lemma latex_loop_error str : forall st e,
  latex_loop icu str st = Error e -> e = MSG__NEWLINE_FOUND.
Proof.
  induction str as [|[cs|] str IH]; intros st e; simpl; [discriminate| |apply IH].
  destruct (latex_scan _ _ _ _ _) as [cfg|e'] eqn:Hs.
  - apply IH.
  - intros [= <-]. eapply latex_scan_error, Hs. simpl. discriminate.
Qed.

Lemma latex_loop_LF (Htrail : consumes_trail_bytes icu) str cs :
  In (Some cs) str -> contains_LF cs ->
  forall st, latex_loop icu str st = Error MSG__NEWLINE_FOUND.
Proof.
  intros Hin [p Hp].
  pose proof (get_lt _ _ _ Hp) as Hlt. apply uint8_at_get in Hp. simpl in Hp.
  induction str as [|[cs'|] str IH]; intros st; simpl; [destruct Hin| |].
  - destruct Hin as [[= ->]|Hin].
    + rewrite (latex_scan_LF Htrail cs _ p); trivial; simpl; try lia. discriminate.
    + destruct (latex_scan _ _ _ _ _) as [cfg|e'] eqn:Hs; [now apply IH|].
      f_equal. eapply latex_scan_error, Hs. simpl. discriminate.
  - destruct Hin as [[=]|Hin]. now apply IH.
Qed.

(** What the scan ends in is a configuration it went through. *)
Lemma latex_scan_reaches cs c0 : forall fuel cfg cfg',
  latex_reaches icu cs c0 cfg ->
  latex_scan icu fuel cs (String.length cs) cfg = Ok cfg' ->
  latex_reaches icu cs c0 cfg'.
Proof.
  induction fuel as [|fuel IH]; intros cfg cfg' Hr; simpl; [congruence|].
  destruct (String.length cs <=? lx_j cfg)%nat eqn:E; [congruence|].
  apply Nat.leb_gt in E.
  destruct (latex_step icu cs _ cfg) as [cfg1|e] eqn:Hs; [|discriminate].
  apply IH. eapply reaches_step; eauto.
Qed.

Lemma latex_reaches_state cs c0 cfg :
  lx_state c0 <> stControlSymbol ->
  latex_reaches icu cs c0 cfg -> lx_state cfg <> stControlSymbol.
Proof.
  intros H0 Hr. induction Hr as [|cfg cfg' _ _ _ Hs]; trivial.
  eapply latex_step_state, Hs.
Qed.

End LatexFacts.

(** *** The counters are accumulators *)

Lemma gs_add_zero_r st : gs_add st gs_zero = st.
Proof. destruct st. stats_eq. Qed.

Lemma ls_add_zero_r st : ls_add st ls_zero = st.
Proof. destruct st. stats_eq. Qed.

Section Accumulate.
Variable icu : ICU.

Lemma general_scan_shift cs cn st : forall fuel j a d,
  general_scan icu fuel cs cn j a (gs_add st d) =
  match general_scan icu fuel cs cn j a d with
  | Ok (a', r) => Ok (a', gs_add st r)
  | Error e => Error e
  end.
Proof.
  induction fuel as [|fuel IH]; intros j a d; simpl; trivial.
  destruct (cn <=? j)%nat; trivial.
  destruct (U8_NEXT icu cs j cn) as [j' c].
  destruct (c =? 10); trivial.
  destruct (negb _).
  - rewrite <- IH. f_equal. stats_eq.
  - rewrite <- IH. f_equal. stats_eq.
Qed.

Lemma general_loop_shift str : forall st d,
  general_loop icu str (gs_add st d) =
  match general_loop icu str d with
  | Ok r => Ok (gs_add st r)
  | Error e => Error e
  end.
Proof.
  induction str as [|[cs|] str IH]; intros st d; simpl; trivial.
  replace (gs_incr_NumLines (gs_add st d)) with (gs_add st (gs_incr_NumLines d))
    by stats_eq.
  rewrite general_scan_shift.
  destruct (general_scan _ _ _ _ _ _ _) as [[a r]|e]; trivial.
  rewrite <- IH. f_equal. destruct a; trivial. stats_eq.
Qed.

Lemma general_loop_app str1 str2 : forall st,
  general_loop icu (str1 ++ str2) st =
  match general_loop icu str1 st with
  | Ok st' => general_loop icu str2 st'
  | Error e => Error e
  end.
Proof.
  induction str1 as [|[cs|] str1 IH]; intros st; simpl; trivial.
  destruct (general_scan _ _ _ _ _ _ _) as [[a r]|e]; trivial.
Qed.

Lemma general_loop_omit_NA str : forall st,
  general_loop icu (List.filter not_NA str) st = general_loop icu str st.
Proof.
  induction str as [|[cs|] str IH]; intros st; simpl; trivial.
  destruct (general_scan _ _ _ _ _ _ _) as [[a r]|e]; trivial.
Qed.

Lemma general_loop_all_NA n st :
  general_loop icu (replicate n None) st = Ok st.
Proof. induction n; simpl; trivial. Qed.

Lemma latex_step_shift cs cn st cfg :
  latex_step icu cs cn (shift_cfg st cfg) =
  match latex_step icu cs cn cfg with
  | Ok cfg' => Ok (shift_cfg st cfg')
  | Error e => Error e
  end.
Proof.
  unfold latex_step, shift_cfg. simpl.
  destruct (U8_NEXT icu cs (lx_j cfg) cn) as [j c].
  destruct (c =? 10); trivial.
  destruct (lx_state cfg); trivial;
    repeat case_match; simplify_eq; simpl; f_equal; f_equal; stats_eq.
Qed.

Lemma latex_scan_shift cs cn st : forall fuel cfg,
  latex_scan icu fuel cs cn (shift_cfg st cfg) =
  match latex_scan icu fuel cs cn cfg with
  | Ok cfg' => Ok (shift_cfg st cfg')
  | Error e => Error e
  end.
Proof.
  induction fuel as [|fuel IH]; intros cfg; simpl; trivial.
  destruct (cn <=? lx_j cfg)%nat; trivial.
  rewrite latex_step_shift.
  destruct (latex_step icu cs cn cfg) as [cfg'|e]; trivial.
Qed.

Lemma latex_loop_shift str : forall st d,
  latex_loop icu str (ls_add st d) =
  match latex_loop icu str d with
  | Ok r => Ok (ls_add st r)
  | Error e => Error e
  end.
Proof.
  induction str as [|[cs|] str IH]; intros st d; simpl; trivial.
  change (mkLatexCfg 0 stStandard false (ls_add st d))
    with (shift_cfg st (mkLatexCfg 0 stStandard false d)).
  rewrite latex_scan_shift.
  destruct (latex_scan _ _ _ _ _) as [cfg|e]; trivial.
  simpl. apply IH.
Qed.

Lemma latex_loop_app str1 str2 : forall st,
  latex_loop icu (str1 ++ str2) st =
  match latex_loop icu str1 st with
  | Ok st' => latex_loop icu str2 st'
  | Error e => Error e
  end.
Proof.
  induction str1 as [|[cs|] str1 IH]; intros st; simpl; trivial.
  destruct (latex_scan _ _ _ _ _) as [cfg|e]; trivial.
Qed.

Lemma latex_loop_omit_NA str : forall st,
  latex_loop icu (List.filter not_NA str) st = latex_loop icu str st.
Proof.
  induction str as [|[cs|] str IH]; intros st; simpl; trivial.
  destruct (latex_scan _ _ _ _ _) as [cfg|e]; trivial.
Qed.

Lemma latex_loop_all_NA n st :
  latex_loop icu (replicate n None) st = Ok st.
Proof. induction n; simpl; trivial. Qed.

End Accumulate.

(** *** On a text of ASCII characters only the ASCII tables decide *)

Lemma all_ascii_text cs : all_ascii cs = true -> is_ascii_text cs.
Proof.
  unfold is_ascii_text, uint8_at.
  induction cs as [|a cs IH]; simpl; intros H i; [destruct i; simpl; lia|].
  apply andb_prop in H as [Ha H]. apply N.ltb_lt in Ha.
  destruct i as [|i]; simpl; [lia|]. now apply IH.
Qed.

Lemma latex_step_ascii icu cs cn cfg :
  agrees_on_ascii icu -> is_ascii_text cs ->
  latex_step icu cs cn cfg = latex_step icu_ascii cs cn cfg.
Proof.
  intros Hag Hcs. unfold latex_step, closes_word.
  rewrite !U8_NEXT_ascii by apply Hcs.
  destruct (Hag _ (Hcs (lx_j cfg))) as (-> & -> & _).
  destruct (Hag _ (Hcs (S (lx_j cfg)))) as (_ & _ & ->).
  reflexivity.
Qed.

Lemma latex_scan_ascii icu cs cn :
  agrees_on_ascii icu -> is_ascii_text cs -> forall fuel cfg,
  latex_scan icu fuel cs cn cfg = latex_scan icu_ascii fuel cs cn cfg.
Proof.
  intros Hag Hcs. induction fuel as [|fuel IH]; intros cfg; simpl; trivial.
  rewrite (latex_step_ascii icu) by assumption.
  destruct (cn <=? lx_j cfg)%nat; trivial.
  destruct (latex_step icu_ascii cs cn cfg); trivial.
Qed.

Lemma stri_stats_latex_ascii icu cs :
  agrees_on_ascii icu -> all_ascii cs = true ->
  stri_stats_latex icu [Some cs] = stri_stats_latex icu_ascii [Some cs].
Proof.
  intros Hag Hcs. unfold stri_stats_latex. simpl.
  now rewrite (latex_scan_ascii icu) by auto using all_ascii_text.
Qed.

Lemma icu_ascii_agrees : agrees_on_ascii icu_ascii.
Proof. intros c _. repeat split. Defined.

Lemma utf8_trail_bytes s : forall n i acc k c,
  utf8_trail s i n acc = (k, c) ->
  forall m, (i <= m < i + k)%nat -> 128 <= uint8_at s m.
Proof.
  induction n as [|n IH]; intros i acc k c; simpl.
  - intros [= <- <-] m Hm. lia.
  - destruct (is_trail (uint8_at s i)) eqn:Ht.
    + destruct (utf8_trail s (S i) n _) as [k' c'] eqn:Hr.
      intros [= <- <-] m Hm.
      destruct (decide (m = i)) as [->|].
      * unfold is_trail in Ht. lia.
      * eapply IH; [exact Hr|lia].
    + intros [= <- <-] m Hm. lia.
Defined.

Lemma icu_ascii_trail : consumes_trail_bytes icu_ascii.
Proof.
  intros s i len c k c'. simpl. unfold utf8_multibyte.
  repeat case_match; intros [= <- <-]; simplify_eq;
    try (intros m Hm; lia); eauto using utf8_trail_bytes.
Defined.

(** *** What the scans change in the counters *)

Lemma uint8_at_LF cs p : uint8_at cs p = 10 -> contains_LF cs.
Proof.
  unfold uint8_at, contains_LF.
  destruct (String.get p cs) as [a|] eqn:Hg; [|discriminate].
  intros H. exists p. rewrite Hg. f_equal.
  rewrite <- (ascii_N_embedding a).
  replace (N_of_ascii a) with 10%N by lia. reflexivity.
Qed.

Lemma uint8_at_beyond cs i : (String.length cs <= i)%nat -> uint8_at cs i = 0.
Proof.
  unfold uint8_at. intros H.
  destruct (String.get i cs) as [a|] eqn:Hg; trivial.
  apply get_lt in Hg. lia.
Qed.

Lemma count_bytes_nonneg P cs : 0 <= count_bytes P cs.
Proof. induction cs as [|a cs IH]; simpl; [lia|]. destruct (P _); lia. Qed.

Lemma length_append_string pre suf :
  String.length (String.append pre suf) = (String.length pre + String.length suf)%nat.
Proof. induction pre as [|a pre IH]; simpl; auto. Qed.

Lemma append_shift pre a suf :
  String.append (String.append pre (String a EmptyString)) suf =
  String.append pre (String a suf).
Proof.
  induction pre as [|b pre IH]; [reflexivity|].
  exact (f_equal (String b) IH).
Qed.

Lemma get_append_head pre a suf :
  String.get (String.length pre) (String.append pre (String a suf)) = Some a.
Proof. exact (eq_sym (append_correct2 pre (String a suf) 0)). Qed.

Section MoreStatsFacts.
Variable icu : ICU.

Lemma U8_NEXT_LF cs j cn j' :
  multibyte_not_LF icu -> U8_NEXT icu cs j cn = (j', 10) -> uint8_at cs j = 10.
Proof.
  intros H. unfold U8_NEXT. destruct (uint8_at cs j <? 128).
  - now intros [= _ ->].
  - destruct (U8_NEXT_multibyte icu cs (S j) cn (uint8_at cs j)) as [k c'] eqn:Hm.
    intros [= _ ->]. now apply H in Hm.
Qed.

Lemma U8_NEXT_within cs j :
  consumes_trail_bytes icu -> (j < String.length cs)%nat ->
  (fst (U8_NEXT icu cs j (String.length cs)) <= String.length cs)%nat.
Proof.
  intros Htrail Hj. unfold U8_NEXT.
  destruct (uint8_at cs j <? 128); [simpl; lia|].
  destruct (U8_NEXT_multibyte icu cs (S j) _ (uint8_at cs j)) as [k c'] eqn:Hm.
  simpl. destruct k as [|k]; [lia|].
  pose proof (Htrail _ _ _ _ _ _ Hm (S j + k)%nat ltac:(lia)) as Hb.
  destruct (decide (S j + S k <= String.length cs)%nat); trivial.
  rewrite uint8_at_beyond in Hb by lia. lia.
Qed.

Lemma general_scan_error_LF (Hm : multibyte_not_LF icu) cs cn :
  forall fuel j a st e,
    general_scan icu fuel cs cn j a st = Error e -> contains_LF cs.
Proof.
  induction fuel as [|fuel IH]; intros j a st e; simpl; [discriminate|].
  destruct (cn <=? j)%nat; [discriminate|].
  destruct (U8_NEXT icu cs j cn) as [j' c] eqn:Hn.
  destruct (c =? 10) eqn:Hc.
  - apply Z.eqb_eq in Hc. subst c. intros _.
    eapply uint8_at_LF, U8_NEXT_LF; eauto.
  - destruct (negb _); apply IH.
Qed.

Lemma general_loop_error_LF (Hm : multibyte_not_LF icu) str : forall st e,
  general_loop icu str st = Error e ->
  exists cs, In (Some cs) str /\ contains_LF cs.
Proof.
  induction str as [|[cs|] str IH]; intros st e; simpl; [discriminate| |].
  - destruct (general_scan _ _ _ _ _ _ _) as [[a st']|e'] eqn:Hs.
    + intros H. destruct (IH _ _ H) as (cs' & Hin & HLF). eauto.
    + intros _. exists cs. split; [auto|]. eapply general_scan_error_LF; eauto.
  - intros H. destruct (IH _ _ H) as (cs' & Hin & HLF). eauto.
Qed.

Lemma latex_step_error_LF (Hm : multibyte_not_LF icu) cs cn cfg e :
  lx_state cfg <> stControlSymbol ->
  latex_step icu cs cn cfg = Error e -> contains_LF cs.
Proof.
  unfold latex_step. intros Hst.
  destruct (U8_NEXT icu cs (lx_j cfg) cn) as [j c] eqn:Hn.
  destruct (c =? 10) eqn:Hc.
  - apply Z.eqb_eq in Hc. subst c. intros _.
    eapply uint8_at_LF, U8_NEXT_LF; eauto.
  - intros H. exfalso. repeat case_match; simplify_eq; congruence.
Qed.

Lemma latex_scan_error_LF (Hm : multibyte_not_LF icu) cs cn :
  forall fuel cfg e,
    lx_state cfg <> stControlSymbol ->
    latex_scan icu fuel cs cn cfg = Error e -> contains_LF cs.
Proof.
  induction fuel as [|fuel IH]; intros cfg e Hst; simpl; [discriminate|].
  destruct (cn <=? lx_j cfg)%nat; [discriminate|].
  destruct (latex_step icu cs cn cfg) as [cfg1|e1] eqn:Hs.
  - apply IH. eapply latex_step_state, Hs.
  - intros _. eapply latex_step_error_LF; eauto.
Qed.

Lemma latex_loop_error_LF (Hm : multibyte_not_LF icu) str : forall st e,
  latex_loop icu str st = Error e ->
  exists cs, In (Some cs) str /\ contains_LF cs.
Proof.
  induction str as [|[cs|] str IH]; intros st e; simpl; [discriminate| |].
  - destruct (latex_scan _ _ _ _ _) as [cfg|e'] eqn:Hs.
    + intros H. destruct (IH _ _ H) as (cs' & Hin & HLF). eauto.
    + intros _. exists cs. split; [auto|].
      eapply latex_scan_error_LF; eauto. simpl. discriminate.
  - intros H. destruct (IH _ _ H) as (cs' & Hin & HLF). eauto.
Qed.

(** What a scan of [stri_stats_general] changes in the record. *)
Lemma general_scan_changes cs cn : forall fuel j a st a' st',
  general_scan icu fuel cs cn j a st = Ok (a', st') ->
  gsNumLines st' = gsNumLines st /\
  gsNumLinesNonEmpty st' = gsNumLinesNonEmpty st /\
  0 <= gsNumCharsNonWhite st' - gsNumCharsNonWhite st
    <= gsNumChars st' - gsNumChars st /\
  gsNumChars st' - gsNumChars st <= Z.of_nat fuel /\
  (a' = true -> a = true \/ 1 <= gsNumCharsNonWhite st' - gsNumCharsNonWhite st).
Proof.
  induction fuel as [|fuel IH]; intros j a st a' st'.
  - simpl. intros [= <- <-]. repeat split; auto; lia.
  - rewrite Nat2Z.inj_succ. cbn [general_scan]. destruct (cn <=? j)%nat.
    + intros [= <- <-]. repeat split; auto; lia.
    + destruct (U8_NEXT icu cs j cn) as [j' c].
      destruct (c =? 10); [discriminate|].
      destruct (negb _); intros H; apply IH in H; simpl in H;
        destruct H as (H1 & H2 & H3 & H4 & H5);
        (split; [congruence|split; [congruence|split; [lia|split; [lia|]]]]).
      * intros _. right. lia.
      * intros Ha. destruct (H5 Ha); [auto|right; lia].
Qed.

Lemma general_loop_changes str : forall st r,
  general_loop icu str st = Ok r ->
  gsNumLines r = gsNumLines st + count_texts str /\
  0 <= gsNumLinesNonEmpty r - gsNumLinesNonEmpty st <= count_texts str /\
  gsNumLinesNonEmpty r - gsNumLinesNonEmpty st
    <= gsNumCharsNonWhite r - gsNumCharsNonWhite st /\
  gsNumCharsNonWhite r - gsNumCharsNonWhite st <= gsNumChars r - gsNumChars st /\
  gsNumChars r - gsNumChars st <= total_bytes str.
Proof.
  induction str as [|[cs|] str IH]; intros st r; simpl.
  - intros [= <-]. lia.
  - destruct (general_scan _ _ _ _ _ _ _) as [[a st1]|e] eqn:Hs; [|discriminate].
    apply general_scan_changes in Hs. simpl in Hs.
    destruct Hs as (H1 & H2 & H3 & H4 & H5).
    intros H. apply IH in H. destruct a; simpl in H.
    + destruct (H5 eq_refl) as [|H6]; [discriminate|]. lia.
    + lia.
  - apply IH.
Qed.

Lemma general_scan_ascii cs :
  is_ascii_text cs -> ~ contains_LF cs ->
  forall suf pre fuel a st,
    cs = String.append pre suf -> (String.length suf <= fuel)%nat ->
    let nw :=
      count_bytes (fun c => negb (u_hasBinaryProperty_WHITE_SPACE icu c)) suf in
    general_scan icu fuel cs (String.length cs) (String.length pre) a st =
    Ok (a || (0 <? nw),
        mkGeneralStats (gsNumLines st) (gsNumLinesNonEmpty st)
          (gsNumChars st + Z.of_nat (String.length suf))
          (gsNumCharsNonWhite st + nw)).
Proof.
  intros Hasc HLF. induction suf as [|c suf IH]; intros pre fuel a st Hcs Hf nw.
  - assert (String.length cs = String.length pre) as Hlen
      by (rewrite Hcs, length_append_string; simpl; lia).
    subst nw. simpl. rewrite orb_false_r, !Z.add_0_r.
    destruct fuel; simpl; [now destruct st|].
    rewrite Hlen, Nat.leb_refl. now destruct st.
  - destruct fuel as [|fuel]; [simpl in Hf; lia|]. simpl general_scan.
    assert (String.length cs = (String.length pre + S (String.length suf))%nat)
      as Hlen by (rewrite Hcs, length_append_string; simpl; lia).
    assert ((String.length cs <=? String.length pre)%nat = false) as ->
      by (apply Nat.leb_gt; lia).
    assert (String.get (String.length pre) cs = Some c) as Hg
      by (rewrite Hcs; apply get_append_head).
    rewrite U8_NEXT_ascii by apply Hasc.
    rewrite (uint8_at_get _ _ _ Hg).
    destruct (Z.of_N (N_of_ascii c) =? 10) eqn:Hc.
    { exfalso. apply HLF. apply (uint8_at_LF cs (String.length pre)).
      rewrite (uint8_at_get _ _ _ Hg). now apply Z.eqb_eq. }
    assert (cs = String.append (String.append pre (String c EmptyString)) suf)
      as Hcs' by (now rewrite append_shift).
    assert (S (String.length pre)
            = String.length (String.append pre (String c EmptyString))) as ->
      by (rewrite length_append_string; simpl; lia).
    pose proof (count_bytes_nonneg
                  (fun c => negb (u_hasBinaryProperty_WHITE_SPACE icu c)) suf) as Hnn.
    subst nw. simpl count_bytes. simpl String.length in *.
    destruct (negb (u_hasBinaryProperty_WHITE_SPACE icu (Z.of_N (N_of_ascii c)))).
    + rewrite (IH _ fuel true _ Hcs') by lia. simpl.
      assert ((0 <? 1 + count_bytes
                 (fun c => negb (u_hasBinaryProperty_WHITE_SPACE icu c)) suf) = true)
        as -> by (apply Z.ltb_lt; lia).
      rewrite orb_true_r. rewrite Nat2Z.inj_succ. do 3 f_equal; lia.
    + rewrite (IH _ fuel a _ Hcs') by lia. simpl.
      rewrite Nat2Z.inj_succ. do 3 f_equal; lia.
Qed.

End MoreStatsFacts.

Lemma get_some cs : forall i, (i < String.length cs)%nat ->
  exists a, String.get i cs = Some a.
Proof.
  induction cs as [|b cs IH]; intros [|i] H; simpl in *; try lia; eauto.
  apply IH. lia.
Qed.

Lemma strncmp_eq_within cs j lit n :
  strncmp_eq cs j lit n = true -> String.length lit = n -> (0 < n)%nat ->
  (j + n <= String.length cs)%nat.
Proof.
  unfold strncmp_eq. intros H Hlen Hn. apply String.eqb_eq in H.
  destruct (get_some lit (n - 1)) as [a Ha]; [lia|].
  rewrite <- (substring_get cs lit j n (n - 1) H) in Ha by lia.
  apply get_lt in Ha. lia.
Qed.

Section MoreLatexFacts.
Variable icu : ICU.

(** What one turn changes: no counter goes down, a word counted is a word
    character counted, a command counted is one and an environment five
    characters of [lsCharsCmdEnvir], and no more characters are counted than
    bytes are consumed. *)
Lemma latex_step_changes cs cn cfg cfg' :
  latex_step icu cs cn cfg = Ok cfg' ->
  let s := lx_stats cfg in
  let s' := lx_stats cfg' in
  0 <= lsWords s' - lsWords s <= lsCharsWord s' - lsCharsWord s /\
  0 <= lsCmd s' - lsCmd s /\ 0 <= lsEnvir s' - lsEnvir s /\
  (lsCmd s' - lsCmd s) + 5 * (lsEnvir s' - lsEnvir s)
    <= lsCharsCmdEnvir s' - lsCharsCmdEnvir s /\
  0 <= lsCharsWhite s' - lsCharsWhite s /\
  ls_chars s' - ls_chars s <= Z.of_nat (lx_j cfg') - Z.of_nat (lx_j cfg).
Proof.
  unfold latex_step. pose proof (U8_NEXT_advances icu cs (lx_j cfg) cn) as Hadv.
  destruct (U8_NEXT icu cs (lx_j cfg) cn) as [j c]. simpl in Hadv.
  intros Hs. repeat case_match; simplify_eq; ls_unfold; lia.
Qed.

Lemma latex_step_within (Htrail : consumes_trail_bytes icu) cs cfg cfg' :
  (lx_j cfg < String.length cs)%nat ->
  latex_step icu cs (String.length cs) cfg = Ok cfg' ->
  (lx_j cfg' <= String.length cs)%nat.
Proof.
  intros Hj. unfold latex_step.
  pose proof (U8_NEXT_within icu cs (lx_j cfg) Htrail Hj) as Hw.
  destruct (U8_NEXT icu cs (lx_j cfg) (String.length cs)) as [j c]. simpl in Hw.
  intros Hs. repeat case_match; simplify_eq; simpl; trivial.
  - match goal with H : _ && strncmp_eq _ _ _ _ = true |- _ =>
      apply andb_prop in H as [_ H];
      apply strncmp_eq_within in H; [exact H|reflexivity|lia] end.
  - match goal with H : _ && strncmp_eq _ _ "nd" _ = true |- _ =>
      apply andb_prop in H as [_ H];
      apply strncmp_eq_within in H; [exact H|reflexivity|lia] end.
Qed.

Lemma latex_reaches_within (Htrail : consumes_trail_bytes icu) cs c0 cfg :
  (lx_j c0 <= String.length cs)%nat ->
  latex_reaches icu cs c0 cfg -> (lx_j cfg <= String.length cs)%nat.
Proof.
  intros H0 Hr. induction Hr as [|cfg cfg' _ _ Hj Hs]; trivial.
  eapply latex_step_within; eauto.
Qed.

Lemma latex_scan_changes (Htrail : consumes_trail_bytes icu) cs :
  forall fuel cfg cfg',
    (lx_j cfg <= String.length cs)%nat ->
    latex_scan icu fuel cs (String.length cs) cfg = Ok cfg' ->
    let s := lx_stats cfg in
    let s' := lx_stats cfg' in
    0 <= lsWords s' - lsWords s <= lsCharsWord s' - lsCharsWord s /\
    0 <= lsCmd s' - lsCmd s /\ 0 <= lsEnvir s' - lsEnvir s /\
    (lsCmd s' - lsCmd s) + 5 * (lsEnvir s' - lsEnvir s)
      <= lsCharsCmdEnvir s' - lsCharsCmdEnvir s /\
    0 <= lsCharsWhite s' - lsCharsWhite s /\
    ls_chars s' - ls_chars s <= Z.of_nat (String.length cs) - Z.of_nat (lx_j cfg).
Proof.
  induction fuel as [|fuel IH]; intros cfg cfg' Hj; simpl.
  - intros [= <-]. lia.
  - destruct (String.length cs <=? lx_j cfg)%nat eqn:E.
    + intros [= <-]. lia.
    + apply Nat.leb_gt in E.
      destruct (latex_step icu cs _ cfg) as [cfg1|e] eqn:Hs; [|discriminate].
      pose proof (latex_step_within Htrail _ _ _ E Hs) as Hw.
      pose proof (latex_step_changes _ _ _ _ Hs) as Hc.
      intros H. apply IH in H; trivial. simpl in *. lia.
Qed.

Lemma latex_loop_changes (Htrail : consumes_trail_bytes icu) str : forall s r,
  latex_loop icu str s = Ok r ->
  0 <= lsWords r - lsWords s <= lsCharsWord r - lsCharsWord s /\
  0 <= lsCmd r - lsCmd s /\ 0 <= lsEnvir r - lsEnvir s /\
  (lsCmd r - lsCmd s) + 5 * (lsEnvir r - lsEnvir s)
    <= lsCharsCmdEnvir r - lsCharsCmdEnvir s /\
  0 <= lsCharsWhite r - lsCharsWhite s /\
  ls_chars r - ls_chars s <= total_bytes str.
Proof.
  induction str as [|[cs|] str IH]; intros s r; simpl.
  - intros [= <-]. lia.
  - destruct (latex_scan _ _ _ _ _) as [cfg|e] eqn:Hs; [|discriminate].
    apply (latex_scan_changes Htrail) in Hs; [|simpl; lia].
    intros H. apply IH in H. simpl in *. lia.
  - apply IH.
Qed.

(** On an ASCII text with no [%] and no line feed every turn counts as many
    characters as it consumes bytes, and never enters [stComment]. *)
Lemma latex_step_ascii_counts cs cfg :
  is_ascii_text cs -> no_byte 37 cs -> ~ contains_LF cs ->
  (lx_j cfg < String.length cs)%nat ->
  lx_state cfg <> stComment -> lx_state cfg <> stControlSymbol ->
  exists cfg',
    latex_step icu cs (String.length cs) cfg = Ok cfg' /\
    lx_state cfg' <> stComment /\ lx_state cfg' <> stControlSymbol /\
    (lx_j cfg < lx_j cfg' <= String.length cs)%nat /\
    ls_chars (lx_stats cfg') - ls_chars (lx_stats cfg)
    = Z.of_nat (lx_j cfg') - Z.of_nat (lx_j cfg).
Proof.
  intros Hasc H37 HLF Hj Hc Hs. unfold latex_step.
  rewrite U8_NEXT_ascii by apply Hasc.
  assert ((uint8_at cs (lx_j cfg) =? 10) = false) as ->.
  { apply Z.eqb_neq. intros H. now apply HLF, (uint8_at_LF cs (lx_j cfg)). }
  assert ((uint8_at cs (lx_j cfg) =? 37) = false) as E37
    by (apply Z.eqb_neq, H37).
  destruct (lx_state cfg); try congruence; rewrite ?E37;
    repeat case_match; eexists; (split; [reflexivity|]); simpl;
    (split; [discriminate|split; [discriminate|]]); ls_unfold;
    try (split; lia).
  - match goal with H : _ && strncmp_eq _ _ _ _ = true |- _ =>
      apply andb_prop in H as [_ H];
      apply strncmp_eq_within in H; [|reflexivity|lia] end.
    split; lia.
  - match goal with H : _ && strncmp_eq _ _ "nd" _ = true |- _ =>
      apply andb_prop in H as [_ H];
      apply strncmp_eq_within in H; [|reflexivity|lia] end.
    split; lia.
Qed.

Lemma latex_scan_ascii_counts cs :
  is_ascii_text cs -> no_byte 37 cs -> ~ contains_LF cs ->
  forall fuel cfg,
    (String.length cs - lx_j cfg <= fuel)%nat ->
    (lx_j cfg <= String.length cs)%nat ->
    lx_state cfg <> stComment -> lx_state cfg <> stControlSymbol ->
    exists cfg',
      latex_scan icu fuel cs (String.length cs) cfg = Ok cfg' /\
      ls_chars (lx_stats cfg') - ls_chars (lx_stats cfg)
      = Z.of_nat (String.length cs) - Z.of_nat (lx_j cfg).
Proof.
  intros Hasc H37 HLF. induction fuel as [|fuel IH]; intros cfg Hf Hj Hc Hs; simpl.
  - eexists. split; [reflexivity|]. lia.
  - destruct (String.length cs <=? lx_j cfg)%nat eqn:E.
    + apply Nat.leb_le in E. eexists. split; [reflexivity|]. lia.
    + apply Nat.leb_gt in E.
      destruct (latex_step_ascii_counts cs cfg Hasc H37 HLF E Hc Hs)
        as (cfg1 & -> & Hc1 & Hs1 & Hj1 & Hd).
      destruct (IH cfg1) as (cfg' & -> & Hd'); try lia; trivial.
      eexists. split; [reflexivity|]. lia.
Qed.

Lemma latex_loop_ascii_counts str :
  (forall cs, In (Some cs) str ->
     is_ascii_text cs /\ no_byte 37 cs /\ ~ contains_LF cs) ->
  forall s, exists r,
    latex_loop icu str s = Ok r /\ ls_chars r = ls_chars s + total_bytes str.
Proof.
  induction str as [|[cs|] str IH]; intros H s; simpl.
  - eexists. split; [reflexivity|]. lia.
  - destruct (H cs (or_introl eq_refl)) as (Hasc & H37 & HLF).
    destruct (latex_scan_ascii_counts cs Hasc H37 HLF (String.length cs)
                (mkLatexCfg 0 stStandard false s))
      as (cfg & -> & Hd); simpl; try lia; try discriminate.
    destruct (IH (fun cs' Hin => H cs' (or_intror Hin)) (lx_stats cfg))
      as (r & -> & Hr).
    eexists. split; [reflexivity|]. simpl in Hd. lia.
  - apply IH. intros cs' Hin. apply H. now right.
Qed.

(** In [stComment] the scan changes nothing. *)
Lemma latex_scan_comment cs cn : forall fuel cfg cfg',
  lx_state cfg = stComment ->
  latex_scan icu fuel cs cn cfg = Ok cfg' ->
  lx_stats cfg' = lx_stats cfg /\ lx_state cfg' = stComment /\
  lx_word cfg' = lx_word cfg.
Proof.
  induction fuel as [|fuel IH]; intros cfg cfg' Hst; simpl.
  - intros [= <-]. auto.
  - destruct (cn <=? lx_j cfg)%nat; [intros [= <-]; auto|].
    unfold latex_step. destruct (U8_NEXT icu cs (lx_j cfg) cn) as [j c].
    destruct (c =? 10); [discriminate|]. rewrite Hst.
    intros H. apply IH in H; [|reflexivity]. exact H.
Qed.

End MoreLatexFacts.

Lemma count_bytes_no_byte b cs :
  b <> 0 -> count_bytes (Z.eqb b) cs = 0 -> no_byte b cs.
Proof.
  unfold no_byte, uint8_at. intros Hb.
  induction cs as [|a cs IH]; simpl; intros H i.
  - destruct i; simpl; congruence.
  - pose proof (count_bytes_nonneg (Z.eqb b) cs) as Hnn.
    destruct (b =? Z.of_N (N_of_ascii a)) eqn:E; [lia|].
    apply Z.eqb_neq in E. destruct i as [|i]; simpl; [congruence|].
    apply IH. lia.
Defined.

Lemma count_bytes_no_LF cs :
  count_bytes (Z.eqb 10) cs = 0 -> ~ contains_LF cs.
Proof.
  intros H [p Hp]. apply (count_bytes_no_byte 10 cs ltac:(discriminate) H p).
  now rewrite (uint8_at_get _ _ _ Hp).
Defined.

(** *** The counters as [int]s *)

Lemma int32_range z : - 2147483648 <= int32 z <= INT_MAX.
Proof.
  unfold int32, INT_MAX.
  pose proof (Z.mod_pos_bound (z + 2147483648) 4294967296 ltac:(lia)). lia.
Qed.

Lemma int32_fits z : - 2147483648 <= z <= INT_MAX -> int32 z = z.
Proof. unfold int32, INT_MAX. intros H. rewrite Z.mod_small by lia. lia. Qed.

Lemma int32_idem z : int32 (int32 z) = int32 z.
Proof. apply int32_fits, int32_range. Qed.

Lemma int32_add_l a b : int32 (int32 a + b) = int32 (a + b).
Proof.
  unfold int32. f_equal.
  replace ((a + 2147483648) mod 4294967296 - 2147483648 + b + 2147483648)
    with ((a + 2147483648) mod 4294967296 + b) by lia.
  rewrite Zplus_mod_idemp_l. f_equal. lia.
Qed.

Lemma int32_add a b : int32 (int32 a + int32 b) = int32 (a + b).
Proof.
  rewrite int32_add_l, (Z.add_comm a), int32_add_l. f_equal. lia.
Qed.

Lemma int32_add3 a b c :
  int32 (int32 a + int32 b + int32 c) = int32 (a + b + c).
Proof.
  rewrite <- (int32_add (a + b) c), <- (int32_add a b).
  now rewrite int32_add_l.
Qed.

Ltac int_eq :=
  unfold gs_add_int, ls_add_int, gs_int, ls_int, gs_add, gs_incr_NumLines,
    gs_incr_NumLinesNonEmpty, gs_incr_NumChars, gs_incr_NumCharsNonWhite,
    ls_add, ls_incr_CharsWord, ls_add_CharsCmdEnvir, ls_incr_CharsWhite,
    ls_incr_Words, ls_incr_Cmd, ls_incr_Envir;
  simpl; f_equal;
  first [apply int32_add | apply int32_add_l | apply int32_idem].

Lemma gs_int_incr_NumLines st :
  gs_int (gs_incr_NumLines (gs_int st)) = gs_int (gs_incr_NumLines st).
Proof. int_eq. Qed.

Lemma gs_int_incr_NumLinesNonEmpty st :
  gs_int (gs_incr_NumLinesNonEmpty (gs_int st))
  = gs_int (gs_incr_NumLinesNonEmpty st).
Proof. int_eq. Qed.

Lemma gs_int_incr_NumChars st :
  gs_int (gs_incr_NumChars (gs_int st)) = gs_int (gs_incr_NumChars st).
Proof. int_eq. Qed.

Lemma gs_int_incr_NumCharsNonWhite st :
  gs_int (gs_incr_NumCharsNonWhite (gs_int st))
  = gs_int (gs_incr_NumCharsNonWhite st).
Proof. int_eq. Qed.

Lemma gs_int_add a b : gs_int (gs_add (gs_int a) (gs_int b)) = gs_int (gs_add a b).
Proof. int_eq. Qed.

Lemma ls_int_add a b : ls_int (ls_add (ls_int a) (ls_int b)) = ls_int (ls_add a b).
Proof. int_eq. Qed.

(** A record whose counters an [int] holds is the record of [int]s. *)
Lemma gs_int_fits r :
  0 <= gsNumLines r <= INT_MAX -> 0 <= gsNumLinesNonEmpty r <= INT_MAX ->
  0 <= gsNumChars r <= INT_MAX -> 0 <= gsNumCharsNonWhite r <= INT_MAX ->
  gs_int r = r.
Proof.
  intros H1 H2 H3 H4. destruct r. unfold gs_int. simpl in *.
  f_equal; apply int32_fits; lia.
Qed.

Lemma ls_int_fits r :
  0 <= lsWords r <= lsCharsWord r -> 0 <= lsCmd r -> 0 <= lsEnvir r ->
  lsCmd r + 5 * lsEnvir r <= lsCharsCmdEnvir r -> 0 <= lsCharsWhite r ->
  ls_chars r <= INT_MAX ->
  ls_int r = r.
Proof.
  intros H1 H2 H3 H4 H5 H6. destruct r. unfold ls_int, ls_chars in *.
  simpl in *. f_equal; apply int32_fits; lia.
Qed.

Section IntFacts.
Variable icu : ICU.

(** The loops on [int]s give the record of the loops on [Z], taken into the
    range of [int], and fail when they fail: no test of the program reads a
    counter. *)
Lemma general_scan_int_wrap cs cn : forall fuel j a st,
  general_scan_int icu fuel cs cn j a (gs_int st) =
  match general_scan icu fuel cs cn j a st with
  | Ok (a', r) => Ok (a', gs_int r)
  | Error e => Error e
  end.
Proof.
  induction fuel as [|fuel IH]; intros j a st; simpl; trivial.
  destruct (cn <=? j)%nat; trivial.
  destruct (U8_NEXT icu cs j cn) as [j' c].
  destruct (c =? 10); trivial.
  rewrite gs_int_incr_NumChars.
  destruct (negb _).
  - rewrite gs_int_incr_NumCharsNonWhite. apply IH.
  - apply IH.
Qed.

Lemma general_loop_int_wrap str : forall st,
  general_loop_int icu str (gs_int st) = res_map gs_int (general_loop icu str st).
Proof.
  induction str as [|[cs|] str IH]; intros st; simpl; trivial.
  rewrite gs_int_incr_NumLines, general_scan_int_wrap.
  destruct (general_scan _ _ _ _ _ _ _) as [[a r]|e]; trivial.
  destruct a; [rewrite gs_int_incr_NumLinesNonEmpty|]; apply IH.
Qed.

Lemma stri_stats_general_int_wrap str :
  stri_stats_general_int icu str = res_map gs_int (stri_stats_general icu str).
Proof.
  unfold stri_stats_general. rewrite <- general_loop_int_wrap. reflexivity.
Qed.

Lemma latex_step_int_wrap cs cn cfg :
  latex_step_int icu cs cn (cfg_int cfg)
  = res_map cfg_int (latex_step icu cs cn cfg).
Proof.
  unfold latex_step_int, latex_step, cfg_int. simpl.
  destruct (U8_NEXT icu cs (lx_j cfg) cn) as [j c].
  destruct (c =? 10); trivial.
  destruct (lx_state cfg); trivial;
    repeat case_match; simplify_eq; simpl; f_equal; f_equal; int_eq.
Qed.

Lemma latex_scan_int_wrap cs cn : forall fuel cfg,
  latex_scan_int icu fuel cs cn (cfg_int cfg)
  = res_map cfg_int (latex_scan icu fuel cs cn cfg).
Proof.
  induction fuel as [|fuel IH]; intros cfg; simpl; trivial.
  destruct (cn <=? lx_j cfg)%nat; trivial.
  rewrite latex_step_int_wrap.
  destruct (latex_step icu cs cn cfg) as [cfg'|e]; simpl; trivial.
Qed.

Lemma latex_loop_int_wrap str : forall st,
  latex_loop_int icu str (ls_int st) = res_map ls_int (latex_loop icu str st).
Proof.
  induction str as [|[cs|] str IH]; intros st; simpl; trivial.
  change (mkLatexCfg 0 stStandard false (ls_int st))
    with (cfg_int (mkLatexCfg 0 stStandard false st)).
  rewrite latex_scan_int_wrap.
  destruct (latex_scan _ _ _ _ _) as [cfg|e]; simpl; trivial.
Qed.

Lemma stri_stats_latex_int_wrap str :
  stri_stats_latex_int icu str = res_map ls_int (stri_stats_latex icu str).
Proof.
  unfold stri_stats_latex. rewrite <- latex_loop_int_wrap. reflexivity.
Qed.

Lemma stri_stats_general_int_error str e :
  stri_stats_general_int icu str = Error e <->
  stri_stats_general icu str = Error e.
Proof.
  rewrite stri_stats_general_int_wrap.
  destruct (stri_stats_general icu str); simpl; split; congruence.
Qed.

Lemma stri_stats_latex_int_error str e :
  stri_stats_latex_int icu str = Error e <->
  stri_stats_latex icu str = Error e.
Proof.
  rewrite stri_stats_latex_int_wrap.
  destruct (stri_stats_latex icu str); simpl; split; congruence.
Qed.

(** The record of [str1 ++ str2] is the sum of the two records. *)
Lemma stri_stats_general_app str1 str2 :
  stri_stats_general icu (str1 ++ str2) =
  res_add gs_add (stri_stats_general icu str1) (stri_stats_general icu str2).
Proof.
  unfold stri_stats_general. rewrite general_loop_app.
  destruct (general_loop icu str1 gs_zero) as [r1|e]; simpl; trivial.
  rewrite <- (gs_add_zero_r r1) at 1. rewrite general_loop_shift.
  now destruct (general_loop icu str2 gs_zero).
Qed.

Lemma stri_stats_latex_app str1 str2 :
  stri_stats_latex icu (str1 ++ str2) =
  res_add ls_add (stri_stats_latex icu str1) (stri_stats_latex icu str2).
Proof.
  unfold stri_stats_latex. rewrite latex_loop_app.
  destruct (latex_loop icu str1 ls_zero) as [r1|e]; simpl; trivial.
  rewrite <- (ls_add_zero_r r1) at 1. rewrite latex_loop_shift.
  now destruct (latex_loop icu str2 ls_zero).
Qed.

Lemma stri_stats_general_int_app str1 str2 :
  stri_stats_general_int icu (str1 ++ str2) =
  res_add gs_add_int (stri_stats_general_int icu str1)
                     (stri_stats_general_int icu str2).
Proof.
  rewrite !stri_stats_general_int_wrap, stri_stats_general_app.
  destruct (stri_stats_general icu str1), (stri_stats_general icu str2);
    simpl; trivial.
  f_equal. unfold gs_add_int. symmetry. apply gs_int_add.
Qed.

Lemma stri_stats_latex_int_app str1 str2 :
  stri_stats_latex_int icu (str1 ++ str2) =
  res_add ls_add_int (stri_stats_latex_int icu str1)
                     (stri_stats_latex_int icu str2).
Proof.
  rewrite !stri_stats_latex_int_wrap, stri_stats_latex_app.
  destruct (stri_stats_latex icu str1), (stri_stats_latex icu str2);
    simpl; trivial.
  f_equal. unfold ls_add_int. symmetry. apply ls_int_add.
Qed.

(** The record of a vector of ASCII texts without a line feed. *)
Lemma general_loop_ascii str :
  (forall cs, In (Some cs) str -> is_ascii_text cs /\ ~ contains_LF cs) ->
  stri_stats_general icu str = Ok (general_stats_of_bytes icu str).
Proof.
  unfold stri_stats_general. induction str as [|[cs|] str IH]; intros H; simpl.
  - reflexivity.
  - destruct (H cs (or_introl eq_refl)) as [Hasc HLF].
    rewrite (general_scan_ascii icu cs Hasc HLF cs EmptyString) by (trivial; lia).
    simpl.
    set (nw := count_bytes _ cs).
    match goal with |- general_loop icu str ?st = _ =>
      rewrite <- (gs_add_zero_r st) end.
    rewrite general_loop_shift, IH by (intros cs' Hin; apply H; now right).
    f_equal. destruct (0 <? nw); stats_eq.
  - apply IH. intros cs' Hin. apply H. now right.
Qed.

(** On a vector whose counts an [int] holds nothing wraps. *)
Lemma stri_stats_general_int_fits str :
  counts_fit_int str ->
  stri_stats_general_int icu str = stri_stats_general icu str.
Proof.
  intros [Hn Hb]. rewrite stri_stats_general_int_wrap.
  destruct (stri_stats_general icu str) as [r|e] eqn:H; simpl; trivial.
  f_equal. apply general_loop_changes in H. simpl in H.
  apply gs_int_fits; lia.
Qed.

(** No counter of [stri_stats_latex] goes down, whatever the decoder. *)
Lemma latex_scan_nondecreasing cs cn : forall fuel cfg cfg',
  latex_scan icu fuel cs cn cfg = Ok cfg' ->
  let s := lx_stats cfg in
  let s' := lx_stats cfg' in
  0 <= lsWords s' - lsWords s <= lsCharsWord s' - lsCharsWord s /\
  0 <= lsCmd s' - lsCmd s /\ 0 <= lsEnvir s' - lsEnvir s /\
  (lsCmd s' - lsCmd s) + 5 * (lsEnvir s' - lsEnvir s)
    <= lsCharsCmdEnvir s' - lsCharsCmdEnvir s /\
  0 <= lsCharsWhite s' - lsCharsWhite s.
Proof.
  induction fuel as [|fuel IH]; intros cfg cfg'; simpl.
  - intros [= <-]. lia.
  - destruct (cn <=? lx_j cfg)%nat.
    + intros [= <-]. lia.
    + destruct (latex_step icu cs cn cfg) as [cfg1|e] eqn:Hs; [|discriminate].
      pose proof (latex_step_changes _ _ _ _ _ Hs) as Hc.
      intros H. apply IH in H. simpl in *. lia.
Qed.

Lemma latex_loop_nondecreasing str : forall s r,
  latex_loop icu str s = Ok r ->
  0 <= lsWords r - lsWords s <= lsCharsWord r - lsCharsWord s /\
  0 <= lsCmd r - lsCmd s /\ 0 <= lsEnvir r - lsEnvir s /\
  (lsCmd r - lsCmd s) + 5 * (lsEnvir r - lsEnvir s)
    <= lsCharsCmdEnvir r - lsCharsCmdEnvir s /\
  0 <= lsCharsWhite r - lsCharsWhite s.
Proof.
  induction str as [|[cs|] str IH]; intros s r; simpl.
  - intros [= <-]. lia.
  - destruct (latex_scan _ _ _ _ _) as [cfg|e] eqn:Hs; [|discriminate].
    apply latex_scan_nondecreasing in Hs.
    intros H. apply IH in H. simpl in *. lia.
  - apply IH.
Qed.

Lemma stri_stats_latex_int_fits (Htrail : consumes_trail_bytes icu) str :
  total_bytes str <= INT_MAX ->
  stri_stats_latex_int icu str = stri_stats_latex icu str.
Proof.
  intros Hb. rewrite stri_stats_latex_int_wrap.
  destruct (stri_stats_latex icu str) as [r|e] eqn:H; simpl; trivial.
  f_equal. apply (latex_loop_changes icu Htrail) in H. simpl in H.
  apply ls_int_fits; unfold ls_chars in *; simpl in *; lia.
Qed.

End IntFacts.

(** * Properties of the boundary functions *)

Lemma boundaries_loop_candidates pending : forall last_match,
  boundaries_loop last_match pending = map fst (candidates last_match pending).
Proof.
  induction pending as [|[m t] rest IH]; intros last_match; simpl; trivial.
  destruct (m =? BreakIterator_DONE); simpl; trivial. now rewrite IH.
Qed.

Lemma words_loop_candidates pending : forall last_match,
  words_loop last_match pending =
  map fst (List.filter is_word (candidates last_match pending)).
Proof.
  induction pending as [|[m t] rest IH]; intros last_match; simpl; trivial.
  destruct (m =? BreakIterator_DONE); simpl; trivial.
  unfold is_word at 1. simpl.
  destruct (negb (t =? UBRK_WORD_NONE)); simpl; now rewrite IH.
Qed.




Section LocateFacts.
Variable eng : BreakEngine.
Variable sti : Stringi.

Lemma locate_in_text_element loop on_none i s st it :
  briter st = Some it ->
  turn_agrees (fun st' => exists it', briter st' = Some it' /\
                 bi_kind it' = bi_kind it /\ bi_locale it' = bi_locale it /\
                 last_boundary st' = last_boundary st)
    i st (locate_in_text eng sti loop on_none i s st)
    (text_element eng sti loop on_none (bi_kind it) (bi_locale it) s).
Proof.
  intros Hit. unfold locate_in_text, text_element. rewrite Hit.
  destruct (U_FAILURE (utext_openUTF8_status eng s)); simpl; [eauto|].
  destruct (U_FAILURE (setText_status eng _ _ s)); simpl; [eauto|].
  eexists. split; [reflexivity|]. simpl. split; [|reflexivity]. eauto.
Qed.

Lemma locate_boundaries_body_passed_over str boundary loc i st :
  passed_over str boundary i ->
  locate_boundaries_body eng sti str boundary loc i st =
  Normal (mkLocState (briter st) (last_boundary st)
            (<[i:=matrix_NA_INTEGER_1_2]> (ret st)) (calls st)).
Proof.
  unfold locate_boundaries_body. intros [H|[H|H]]; rewrite H; trivial.
  - now destruct (StriContainer_get str i).
  - now destruct (StriContainer_get boundary i).
Qed.

Lemma locate_boundaries_body_element str boundary loc i st :
  iterator_for eng loc st ->
  turn_agrees (iterator_for eng loc) i st
    (locate_boundaries_body eng sti str boundary loc i st)
    (boundaries_element eng sti loc (StriContainer_get str i) (StriContainer_get boundary i)).
Proof.
  intros Hinv. unfold locate_boundaries_body, boundaries_element.
  destruct (StriContainer_get str i) as [s|];
    [destruct (StriContainer_get boundary i) as [b|]|];
    try (simpl; eexists; split; [reflexivity|split; [exact Hinv|reflexivity]]).
  destruct (String.length s =? 0)%nat;
    [simpl; eexists; split; [reflexivity|split; [exact Hinv|reflexivity]]|].
  set (k := stri__match_arg sti b boundary_opts).
  destruct (k <? 0); [simpl; eauto|].
  unfold open_BreakIterator, createInstance.
  destruct (last_boundary st =? k) eqn:Ek; simpl.
  - apply Z.eqb_eq in Ek. unfold iterator_for in Hinv.
    destruct (briter st) as [it|] eqn:Hit.
    + destruct Hinv as (Hk & Hl & Hc & Hf). rewrite <- Ek, Hc, Hf.
      pose proof (locate_in_text_element boundaries_loop None i s st it Hit) as H.
      rewrite Hk, Hl in H.
      destruct (text_element eng sti boundaries_loop None (last_boundary st) loc s);
        simpl in *; trivial.
      destruct H as (st' & -> & (it' & Hit' & Hk' & Hl' & Hlb) & Hret).
      eexists. split; [reflexivity|]. split; [|exact Hret].
      unfold iterator_for. rewrite Hit', Hlb. repeat split; congruence.
    + rewrite <- Ek, Hinv. unfold locate_in_text. rewrite Hit.
      destruct (U_FAILURE (utext_openUTF8_status eng s)); simpl; eauto.
  - destruct (kind_has_case k) eqn:Hc.
    + destruct (U_FAILURE (createInstance_status eng k loc)) eqn:Hf; [simpl; eauto|].
      match goal with |- context [locate_in_text _ _ _ _ _ _ ?st1] =>
        pose proof (locate_in_text_element boundaries_loop None i s st1 _ eq_refl) as H
      end. simpl in H.
      destruct (text_element eng sti boundaries_loop None k loc s); simpl in *; trivial.
      destruct H as (st' & -> & (it' & Hit' & Hk' & Hl' & Hlb) & Hret).
      eexists. split; [reflexivity|]. split; [|exact Hret].
      unfold iterator_for. rewrite Hit', Hlb. repeat split; congruence.
    + unfold locate_in_text. simpl.
      destruct (U_FAILURE (utext_openUTF8_status eng s)); simpl; eauto.
Qed.

(** *** The loop over the elements *)

Lemma run_loop_app body pre post st :
  run_loop body (pre ++ post) st =
  match run_loop body pre st with
  | Normal st' => run_loop body post st'
  | o => o
  end.
Proof.
  revert st. induction pre as [|i pre IH]; intros st; simpl; trivial.
  destruct (body i st); trivial.
Qed.

Lemma run_loop_elements (P : LocState -> Prop) body (el : nat -> Element) :
  (forall i st, P st -> turn_agrees P i st (body i st) (el i)) ->
  forall order st st', P st -> run_loop body order st = Normal st' ->
    P st' /\ length (ret st') = length (ret st) /\
    (forall i, In i order -> exists x, el i = el_value x /\
       ((i < length (ret st))%nat -> ret st' !! i = Some x)) /\
    (forall i, ~ In i order -> ret st' !! i = ret st !! i).
Proof.
  intros Hbody. induction order as [|j order IH]; intros st st' HP; simpl.
  - intros [= <-]. repeat split; trivial. intros i [].
  - pose proof (Hbody j st HP) as Hj. unfold turn_agrees in Hj.
    destruct (el j) as [x|e|] eqn:Hel.
    + destruct Hj as (st1 & -> & HP1 & Hret). intros Hrun.
      destruct (IH st1 st' HP1 Hrun) as (HP' & Hlen & Hin & Hout).
      rewrite Hret, length_insert in Hlen, Hin.
      repeat split; trivial.
      * intros i Hi. destruct (in_dec Nat.eq_dec i order) as [Hio|Hio]; [auto|].
        destruct Hi as [<-|Hi]; [|contradiction].
        exists x. split; trivial. intros Hlt.
        rewrite (Hout j Hio), Hret. now apply list_lookup_insert_eq.
      * intros i Hi. rewrite Hout by tauto. rewrite Hret.
        apply list_lookup_insert_ne. tauto.
    + destruct Hj as (st1 & ->). discriminate.
    + rewrite Hj. discriminate.
Qed.

Lemma run_loop_normal (P : LocState -> Prop) body (el : nat -> Element) :
  (forall i st, P st -> turn_agrees P i st (body i st) (el i)) ->
  forall order st, P st ->
    (forall i, In i order -> exists x, el i = el_value x) ->
    exists st', run_loop body order st = Normal st'.
Proof.
  intros Hbody. induction order as [|j order IH]; intros st HP Hall; simpl; eauto.
  pose proof (Hbody j st HP) as Hj. unfold turn_agrees in Hj.
  destruct (Hall j (or_introl eq_refl)) as [x Hx]. rewrite Hx in Hj.
  destruct Hj as (st1 & -> & HP1 & _). apply IH; trivial.
  intros i Hi. apply Hall. now right.
Qed.

(** A call for one element, with an iterator of its own. *)
Lemma single_element_call s b loc :
  stri__recycling_rule sti 1 1 = 1%nat ->
  vectorize_order sti 1 1 = [0%nat] ->
  match boundaries_element eng sti loc s b with
  | el_value x =>
      exists st, stri_locate_boundaries eng sti [s] [b] loc = Normal st /\
                 ret st = [x]
  | el_throw e => exists st, stri_locate_boundaries eng sti [s] [b] loc = Throw e st
  | el_undefined => stri_locate_boundaries eng sti [s] [b] loc = Undefined
  end.
Proof.
  intros H1 H2. unfold stri_locate_boundaries. simpl length. rewrite H1, H2.
  simpl run_loop.
  match goal with |- context [locate_boundaries_body _ _ _ _ _ _ ?st0] =>
    pose proof (locate_boundaries_body_element [s] [b] loc 0 st0 eq_refl) as H
  end.
  change (StriContainer_get [s] 0) with s in H.
  change (StriContainer_get [b] 0) with b in H.
  unfold turn_agrees in H.
  destruct (boundaries_element eng sti loc s b) as [x|e|].
  - destruct H as (st' & -> & _ & Hret). eauto.
  - destruct H as (st' & ->). eauto.
  - now rewrite H.
Qed.

(** *** Which calls are made *)

Lemma locate_in_text_calls loop on_none i s st st' :
  outcome_state (locate_in_text eng sti loop on_none i s st) = Some st' ->
  forall c, In c (calls st') -> In c (calls st) \/ call_index c = Some i.
Proof.
  unfold locate_in_text.
  destruct (U_FAILURE (utext_openUTF8_status eng s)); simpl.
  - intros [= <-] c. simpl. rewrite in_app_iff. simpl. intuition (subst; auto).
  - destruct (briter st) as [it|]; [|discriminate].
    destruct (U_FAILURE (setText_status eng _ _ s)); simpl;
      intros [= <-] c; simpl; rewrite !in_app_iff; simpl; intuition (subst; auto).
Qed.

Lemma locate_boundaries_body_calls str boundary loc i st st' :
  outcome_state (locate_boundaries_body eng sti str boundary loc i st) = Some st' ->
  forall c, In c (calls st') ->
    In c (calls st) \/ (call_index c = Some i /\ ~ passed_over str boundary i).
Proof.
  unfold locate_boundaries_body, passed_over.
  destruct (StriContainer_get str i) as [s|];
    [destruct (StriContainer_get boundary i) as [b|]|];
    try (simpl; intros [= <-]; simpl; now auto).
  destruct (String.length s =? 0)%nat eqn:El;
    [simpl; intros [= <-]; simpl; now auto|].
  assert (~ (Some s = None \/ Some b = None \/ Some s = Some EmptyString)) as Hn.
  { intros [?|[?|[= ->]]]; discriminate. }
  destruct (_ <? 0); [simpl; intros [= <-]; now auto|].
  unfold open_BreakIterator.
  destruct (negb _).
  - destruct (createInstance eng _ loc) as [[it status]|].
    + destruct (U_FAILURE status).
      * simpl. intros [= <-] c. simpl. rewrite in_app_iff. simpl.
        intuition (subst; auto).
      * intros H c Hc.
        destruct (locate_in_text_calls _ _ _ _ _ _ H c Hc) as [Hc'|Hc']; [|auto].
        simpl in Hc'. rewrite in_app_iff in Hc'. simpl in Hc'.
        intuition (subst; auto).
    + intros H c Hc.
      destruct (locate_in_text_calls _ _ _ _ _ _ H c Hc) as [Hc'|Hc']; auto.
  - intros H c Hc.
    destruct (locate_in_text_calls _ _ _ _ _ _ H c Hc) as [Hc'|Hc']; auto.
Qed.

Lemma run_loop_calls str boundary loc order : forall st st',
  outcome_state
    (run_loop (locate_boundaries_body eng sti str boundary loc) order st) = Some st' ->
  forall c, In c (calls st') ->
    In c (calls st) \/
    exists i, In i order /\ call_index c = Some i /\ ~ passed_over str boundary i.
Proof.
  induction order as [|j order IH]; intros st st'; simpl.
  - intros [= <-]. auto.
  - destruct (locate_boundaries_body eng sti str boundary loc j st) as [st1|e st1|] eqn:Hb.
    + intros H c Hc. destruct (IH _ _ H c Hc) as [Hc1|(i & Hi & Hci & Hp)].
      * assert (outcome_state (locate_boundaries_body eng sti str boundary loc j st)
                = Some st1) as Hb' by now rewrite Hb.
        destruct (locate_boundaries_body_calls _ _ _ _ _ _ Hb' c Hc1) as [?|[? ?]];
          [auto|]. right. exists j. auto.
      * right. exists i. auto.
    + simpl. intros [= <-] c Hc.
      assert (outcome_state (locate_boundaries_body eng sti str boundary loc j st)
              = Some st1) as Hb' by now rewrite Hb.
      destruct (locate_boundaries_body_calls _ _ _ _ _ _ Hb' c Hc) as [?|[? ?]];
        [auto|]. right. exists j. auto.
    + discriminate.
Qed.

(** *** [stri_locate_words] *)

Lemma locate_words_body_element str loc i st :
  word_iterator loc st ->
  turn_agrees (word_iterator loc) i st (locate_words_body eng sti str i st)
    (words_element eng sti loc (StriContainer_get str i)).
Proof.
  intros (it & Hit & Hk & Hl). unfold locate_words_body, words_element.
  destruct (StriContainer_get str i) as [s|].
  - pose proof (locate_in_text_element words_loop (Some matrix_NA_INTEGER_1_2)
                  i s st it Hit) as H.
    rewrite Hk, Hl in H.
    destruct (text_element eng sti words_loop _ 3 loc s); simpl in *; trivial.
    destruct H as (st' & -> & (it' & Hit' & Hk' & Hl' & _) & Hret).
    eexists. split; [reflexivity|]. split; [|exact Hret].
    exists it'. repeat split; congruence.
  - simpl. eexists. split; [reflexivity|]. split; [|reflexivity].
    exists it. auto.
Qed.

Lemma StriContainer_get_lookup (v : list (option string)) i x :
  v !! i = Some x -> StriContainer_get v i = x.
Proof.
  intros H. unfold StriContainer_get.
  pose proof (lookup_lt_Some _ _ _ H) as Hlt.
  rewrite Nat.mod_small by exact Hlt. now rewrite H.
Qed.

Lemma stri_locate_words_elements str loc st :
  stri_locate_words eng sti str loc = Normal st ->
  forall i s, str !! i = Some s ->
    exists x, words_element eng sti loc s = el_value x /\ ret st !! i = Some x.
Proof.
  unfold stri_locate_words.
  destruct (U_FAILURE (createInstance_status eng 3 loc)); [discriminate|].
  intros Hrun i s Hi.
  match type of Hrun with run_loop _ _ ?st0 = _ =>
    assert (word_iterator loc st0) as H0 by (eexists; simpl; eauto)
  end.
  destruct (run_loop_elements (word_iterator loc) _
              (fun i => words_element eng sti loc (StriContainer_get str i))
              (locate_words_body_element str loc) _ _ _ H0 Hrun)
    as (_ & _ & Hin & _).
  pose proof (lookup_lt_Some _ _ _ Hi) as Hlt.
  destruct (Hin i) as (x & Hx & Hret).
  { apply in_seq. lia. }
  rewrite (StriContainer_get_lookup _ _ _ Hi) in Hx.
  exists x. split; trivial. apply Hret. simpl. now rewrite length_replicate.
Qed.

(** *** What is thrown *)

Lemma locate_in_text_throw loop on_none i s st e st' :
  locate_in_text eng sti loop on_none i s st = Throw e st' -> is_StriException e.
Proof.
  unfold locate_in_text, is_StriException.
  destruct (U_FAILURE (utext_openUTF8_status eng s)); [intros [= <- _]; eauto|].
  destruct (briter st) as [it|]; [|discriminate].
  destruct (U_FAILURE (setText_status eng _ _ s)); [intros [= <- _]; eauto|].
  discriminate.
Qed.

Lemma locate_boundaries_body_throw str boundary loc i st e st' :
  locate_boundaries_body eng sti str boundary loc i st = Throw e st' ->
  is_StriException e.
Proof.
  unfold locate_boundaries_body.
  destruct (StriContainer_get str i) as [s|]; [|discriminate].
  destruct (StriContainer_get boundary i) as [b|]; [|discriminate].
  destruct (String.length s =? 0)%nat; [discriminate|].
  destruct (_ <? 0); [intros [= <- _]; left; reflexivity|].
  unfold open_BreakIterator.
  destruct (negb _); [|apply locate_in_text_throw].
  destruct (createInstance eng _ loc) as [[it status]|];
    [|apply locate_in_text_throw].
  destruct (U_FAILURE status); [|apply locate_in_text_throw].
  intros [= <- _]. right. eauto.
Qed.

Lemma locate_words_body_throw str i st e st' :
  locate_words_body eng sti str i st = Throw e st' -> is_StriException e.
Proof.
  unfold locate_words_body.
  destruct (StriContainer_get str i) as [s|]; [|discriminate].
  apply locate_in_text_throw.
Qed.

Lemma run_loop_throw body :
  (forall i st e st', body i st = Throw e st' -> is_StriException e) ->
  forall order st e st', run_loop body order st = Throw e st' -> is_StriException e.
Proof.
  intros Hbody. induction order as [|j order IH]; intros st e st'; simpl;
    [discriminate|].
  destruct (body j st) as [st1|e1 st1|] eqn:Hb; [apply IH| |discriminate].
  intros [= <- _]. eapply Hbody, Hb.
Qed.

Lemma stri_locate_throw str boundary loc e st :
  (stri_locate_boundaries eng sti str boundary loc = Throw e st ->
   is_StriException e) /\
  (stri_locate_words eng sti str loc = Throw e st -> is_StriException e).
Proof.
  split.
  - unfold stri_locate_boundaries. apply run_loop_throw.
    intros i st0 e0 st0'. apply locate_boundaries_body_throw.
  - unfold stri_locate_words.
    destruct (U_FAILURE (createInstance_status eng 3 loc)).
    + intros [= <- _]. right. eauto.
    + apply run_loop_throw. intros i st0 e0 st0'. apply locate_words_body_throw.
Qed.

Lemma boundaries_element_passed_over str boundary loc i :
  passed_over str boundary i ->
  boundaries_element eng sti loc (StriContainer_get str i) (StriContainer_get boundary i)
  = el_value matrix_NA_INTEGER_1_2.
Proof.
  unfold boundaries_element. intros [H|[H|H]]; rewrite H; trivial.
  - now destruct (StriContainer_get str i).
  - now destruct (StriContainer_get boundary i).
Qed.

Lemma fresh_state_iterator loc n : iterator_for eng loc (fresh_state n).
Proof. reflexivity. Qed.

Lemma stri_locate_boundaries_elements str boundary loc st :
  stri_locate_boundaries eng sti str boundary loc = Normal st ->
  let vl := stri__recycling_rule sti (length str) (length boundary) in
  forall i, In i (vectorize_order sti (length boundary) vl) -> (i < vl)%nat ->
    exists x,
      boundaries_element eng sti loc (StriContainer_get str i) (StriContainer_get boundary i)
      = el_value x /\ ret st !! i = Some x.
Proof.
  intros Hrun vl i Hi Hlt. unfold stri_locate_boundaries in Hrun.
  destruct (run_loop_elements (iterator_for eng loc) _
              (fun i => boundaries_element eng sti loc (StriContainer_get str i)
                          (StriContainer_get boundary i))
              (locate_boundaries_body_element str boundary loc) _ _ _
              (fresh_state_iterator loc _) Hrun)
    as (_ & _ & Hin & _).
  destruct (Hin i Hi) as (x & Hx & Hret).
  exists x. split; trivial. apply Hret. simpl. now rewrite length_replicate.
Qed.

End LocateFacts.

(** * The claims *)

(** C1, as stated, fails for the boundary functions: they have no test for a
    line feed.  On the text "ab", LF, "cd" both return normally, with the
    intervals the engine finds; nothing is thrown. *)
Lemma C1_boundary_calls_accept_LF :
  contains_LF text_ab_LF_cd /\
  stri_locate_boundaries toy_engine spec_stringi
    [Some text_ab_LF_cd] [Some "word"%string] "en" =
  Normal (mkLocState (Some (mkBreakIterator 3 "en" 0 [])) 3
            [IntMatrix [(1, 5)]]
            [call_createInstance (Some 0%nat) 3; call_utext_openUTF8 0;
             call_setText 0]) /\
  stri_locate_words toy_engine spec_stringi [Some text_ab_LF_cd] "en" =
  Normal (mkLocState (Some (mkBreakIterator 3 "en" 0 [])) 3
            [IntMatrix [(1, 5)]]
            [call_createInstance None 3; call_utext_openUTF8 0; call_setText 0]).
Proof.
  split; [exists 2%nat; reflexivity|]. split; vm_compute; reflexivity.
Qed.

(** C1, amended: [stri_stats_general] and [stri_stats_latex] fail as a whole
    with the line-feed error as soon as some non-NA element has a line feed
    anywhere; [stri_locate_boundaries] and [stri_locate_words] never throw
    that error, whatever the texts and the engine. *)
Theorem C1_line_feed_aborts_stats (icu : ICU) (Htrail : consumes_trail_bytes icu) :
  (forall str cs, In (Some cs) str -> contains_LF cs ->
     stri_stats_general icu str = Error MSG__NEWLINE_FOUND /\
     stri_stats_latex icu str = Error MSG__NEWLINE_FOUND) /\
  (forall eng sti str boundary loc st,
     stri_locate_boundaries eng sti str boundary loc <> Throw MSG__NEWLINE_FOUND st /\
     stri_locate_words eng sti str loc <> Throw MSG__NEWLINE_FOUND st).
Proof.
  split.
  - intros str cs Hin HLF. split.
    + now apply general_loop_LF with cs.
    + now apply latex_loop_LF with cs.
  - intros eng sti str boundary loc st.
    destruct (stri_locate_throw eng sti str boundary loc MSG__NEWLINE_FOUND st)
      as [Hb Hw].
    split; intros H; [apply Hb in H|apply Hw in H];
      destruct H as [H|[status H]]; discriminate.
Qed.

Lemma C1_line_feed_aborts_stats_witness :
  stri_stats_general icu_ascii [None; Some text_ab_LF_cd] = Error MSG__NEWLINE_FOUND /\
  stri_stats_latex icu_ascii [None; Some text_ab_LF_cd] = Error MSG__NEWLINE_FOUND.
Proof.
  apply (proj1 (C1_line_feed_aborts_stats icu_ascii icu_ascii_trail)
           [None; Some text_ab_LF_cd] text_ab_LF_cd).
  - simpl. auto.
  - exists 2%nat. reflexivity.
Defined.

(** C2, as stated, fails for a letter other than [b]: in "\xegin{a}" the
    letter [x] after the backslash is followed by the four bytes "egin", and
    the turn counts a command and enters [stCommand]; no environment is
    counted. *)
Lemma C2_other_letter_before_egin :
  u_isUAlphabetic icu_ascii (uint8_at text_xegin 1) = true /\
  strncmp_eq text_xegin 2 "egin" 4 = true /\
  latex_step icu_ascii text_xegin 9
    (mkLatexCfg 1 stControlSequence false (mkLatexStats 0 1 0 0 0 0)) =
  Ok (mkLatexCfg 2 stCommand false (mkLatexStats 0 2 0 0 1 0)) /\
  stri_stats_latex icu_ascii [Some text_xegin] = Ok (mkLatexStats 1 6 2 1 1 0).
Proof. repeat split; vm_compute; reflexivity. Qed.

(** C2, amended: in [stControlSequence] the letter [b] followed by the four
    bytes "egin" adds 1 to [lsEnvir] and 5 to [lsCharsCmdEnvir], skips the
    four bytes and enters [stEnvironment]; the letter [e] followed by the
    two bytes "nd" adds 3 to [lsCharsCmdEnvir], skips the two bytes and
    enters [stEnvironment] with [lsEnvir] unchanged; and the text
    "\begin{equation}x\end{equation}" has one environment. *)
Theorem C2_begin_and_end (icu : ICU) (Hag : agrees_on_ascii icu) :
  (forall cs cn cfg,
     lx_state cfg = stControlSequence ->
     uint8_at cs (lx_j cfg) = 98 ->
     strncmp_eq cs (S (lx_j cfg)) "egin" 4 = true ->
     latex_step icu cs cn cfg =
     Ok (mkLatexCfg (lx_j cfg + 5) stEnvironment (lx_word cfg)
           (mkLatexStats (lsCharsWord (lx_stats cfg))
              (lsCharsCmdEnvir (lx_stats cfg) + 5) (lsCharsWhite (lx_stats cfg))
              (lsWords (lx_stats cfg)) (lsCmd (lx_stats cfg))
              (lsEnvir (lx_stats cfg) + 1)))) /\
  (forall cs cn cfg,
     lx_state cfg = stControlSequence ->
     uint8_at cs (lx_j cfg) = 101 ->
     strncmp_eq cs (S (lx_j cfg)) "nd" 2 = true ->
     latex_step icu cs cn cfg =
     Ok (mkLatexCfg (lx_j cfg + 3) stEnvironment (lx_word cfg)
           (mkLatexStats (lsCharsWord (lx_stats cfg))
              (lsCharsCmdEnvir (lx_stats cfg) + 3) (lsCharsWhite (lx_stats cfg))
              (lsWords (lx_stats cfg)) (lsCmd (lx_stats cfg))
              (lsEnvir (lx_stats cfg))))) /\
  stri_stats_latex icu [Some text_begin_end] = Ok (mkLatexStats 1 30 0 1 0 1).
Proof.
  split; [|split].
  - intros cs cn cfg Hst Hc Hs. unfold latex_step.
    rewrite U8_NEXT_ascii by lia. rewrite Hst, Hc, Hs.
    destruct (Hag 98 ltac:(lia)) as (-> & _). simpl.
    do 2 f_equal. lia.
  - intros cs cn cfg Hst Hc Hs. unfold latex_step.
    rewrite U8_NEXT_ascii by lia. rewrite Hst, Hc, Hs.
    destruct (Hag 101 ltac:(lia)) as (-> & _). simpl.
    do 2 f_equal. lia.
  - rewrite stri_stats_latex_ascii by (trivial; reflexivity).
    vm_compute. reflexivity.
Qed.

Lemma C2_begin_and_end_witness :
  latex_step icu_ascii text_begin_end 32
    (mkLatexCfg 1 stControlSequence false (mkLatexStats 0 1 0 0 0 0)) =
  Ok (mkLatexCfg 6 stEnvironment false (mkLatexStats 0 6 0 0 0 1)) /\
  latex_step icu_ascii text_begin_end 32
    (mkLatexCfg 18 stControlSequence false (mkLatexStats 1 17 0 1 0 1)) =
  Ok (mkLatexCfg 21 stEnvironment false (mkLatexStats 1 20 0 1 0 1)) /\
  stri_stats_latex icu_ascii [Some text_begin_end] = Ok (mkLatexStats 1 30 0 1 0 1).
Proof.
  destruct (C2_begin_and_end icu_ascii icu_ascii_agrees) as (Hb & He & Hx).
  split; [|split].
  - exact (Hb text_begin_end 32%nat
             (mkLatexCfg 1 stControlSequence false (mkLatexStats 0 1 0 0 0 0))
             eq_refl eq_refl eq_refl).
  - exact (He text_begin_end 32%nat
             (mkLatexCfg 18 stControlSequence false (mkLatexStats 1 17 0 1 0 1))
             eq_refl eq_refl eq_refl).
  - exact Hx.
Defined.

(** C6: each of [stri_stats_general] and [stri_stats_latex], with its
    counters the [int]s they are, gives one record for the whole vector.  A
    vector of NA elements only gives the record of zeros; NA elements add
    nothing (leaving them out changes nothing); the elements are accumulated
    (the record of [str1 ++ str2] is the sum, in [int]s, of the records of
    [str1] and of [str2], or the first failure).  And what is accumulated is
    every element that is not NA: [Lines] is the number of these elements
    (as an [int]); on ASCII texts without a line feed the record of
    [stri_stats_general] is the one read off the bytes of all of them; on
    ASCII texts with no [%] and no line feed the characters that
    [stri_stats_latex] counts are the bytes of all of them. *)
Theorem C6_counters_accumulate (icu : ICU) :
  (forall n,
     stri_stats_general_int icu (replicate n None) = Ok (mkGeneralStats 0 0 0 0) /\
     stri_stats_latex_int icu (replicate n None) = Ok (mkLatexStats 0 0 0 0 0 0)) /\
  (forall str,
     stri_stats_general_int icu (List.filter not_NA str)
     = stri_stats_general_int icu str /\
     stri_stats_latex_int icu (List.filter not_NA str)
     = stri_stats_latex_int icu str) /\
  (forall str1 str2,
     stri_stats_general_int icu (str1 ++ str2) =
     res_add gs_add_int (stri_stats_general_int icu str1)
                        (stri_stats_general_int icu str2) /\
     stri_stats_latex_int icu (str1 ++ str2) =
     res_add ls_add_int (stri_stats_latex_int icu str1)
                        (stri_stats_latex_int icu str2)) /\
  (forall str r,
     stri_stats_general_int icu str = Ok r ->
     gsNumLines r = int32 (count_texts str)) /\
  (forall str,
     (forall cs, In (Some cs) str -> is_ascii_text cs /\ ~ contains_LF cs) ->
     stri_stats_general_int icu str
     = Ok (gs_int (general_stats_of_bytes icu str))) /\
  (forall str,
     (forall cs, In (Some cs) str ->
        is_ascii_text cs /\ no_byte 37 cs /\ ~ contains_LF cs) ->
     exists r,
       stri_stats_latex_int icu str = Ok r /\
       int32 (lsCharsWord r + lsCharsCmdEnvir r + lsCharsWhite r)
       = int32 (total_bytes str)).
Proof.
  split; [|split; [|split; [|split; [|split]]]].
  - intros n. rewrite stri_stats_general_int_wrap, stri_stats_latex_int_wrap.
    unfold stri_stats_general, stri_stats_latex.
    now rewrite general_loop_all_NA, latex_loop_all_NA.
  - intros str. rewrite !stri_stats_general_int_wrap, !stri_stats_latex_int_wrap.
    unfold stri_stats_general, stri_stats_latex.
    now rewrite general_loop_omit_NA, latex_loop_omit_NA.
  - intros str1 str2.
    split; [apply stri_stats_general_int_app|apply stri_stats_latex_int_app].
  - intros str r. rewrite stri_stats_general_int_wrap.
    destruct (stri_stats_general icu str) as [r0|e] eqn:H; [|discriminate].
    intros [= <-]. apply general_loop_changes in H. simpl in *.
    f_equal. lia.
  - intros str H. rewrite stri_stats_general_int_wrap.
    now rewrite (general_loop_ascii icu str H).
  - intros str H. rewrite stri_stats_latex_int_wrap.
    destruct (latex_loop_ascii_counts icu str H ls_zero) as (r & Hr & Hc).
    unfold stri_stats_latex. rewrite Hr. simpl. eexists. split; [reflexivity|].
    simpl. rewrite int32_add3. f_equal.
    unfold ls_chars in Hc. simpl in Hc. lia.
Qed.

(** The vector of ["ab cd"], NA and two blanks: two lines, one of them not
    empty, seven characters, four of them not white.  The vector of
    [text_begin_end], NA and ["a 1"]: 34 characters. *)
Lemma C6_counters_accumulate_witness :
  stri_stats_general_int icu_ascii [Some "ab cd"%string; None; Some "  "%string]
  = Ok (mkGeneralStats 2 1 7 4) /\
  stri_stats_general_int icu_ascii [None; None; None] = Ok (mkGeneralStats 0 0 0 0) /\
  exists r,
    stri_stats_latex_int icu_ascii [Some text_begin_end; None; Some "a 1"%string]
    = Ok r /\
    int32 (lsCharsWord r + lsCharsCmdEnvir r + lsCharsWhite r) = 34.
Proof.
  destruct (C6_counters_accumulate icu_ascii)
    as (Hzero & _ & _ & _ & Hgeneral & Hlatex).
  split; [|split].
  - refine (eq_trans (Hgeneral _ _) _); [|vm_compute; reflexivity].
    intros cs [[= <-]|[[=]|[[= <-]|[]]]]; split;
      try (apply all_ascii_text; reflexivity);
      intros [p Hp]; do 6 (destruct p as [|p]; [discriminate|]); discriminate.
  - exact (proj1 (Hzero 3%nat)).
  - apply Hlatex.
    intros cs [[= <-]|[[=]|[[= <-]|[]]]]; repeat split;
      try (apply all_ascii_text; reflexivity);
      try (apply count_bytes_no_byte; [discriminate|reflexivity]);
      apply count_bytes_no_LF; reflexivity.
Defined.

(** C7: a backslash read in [stStandard] leaves an open word open unless
    there is a code point to look ahead to and that code point is not
    punctuation or is [~] or [^], in which case the word is closed; a word
    that is not open stays so.  The text [text_Kahler] (K, backslash, double
    quote, ahler) is one word. *)
Theorem C7_backslash_and_word (icu : ICU) (Hag : agrees_on_ascii icu) :
  (forall cs cn cfg,
     lx_state cfg = stStandard ->
     uint8_at cs (lx_j cfg) = 92 ->
     let j := S (lx_j cfg) in
     let cnext := snd (U8_NEXT icu cs j cn) in
     exists cfg',
       latex_step icu cs cn cfg = Ok cfg' /\
       lx_state cfg' = stControlSequence /\ lx_j cfg' = j /\
       (lx_word cfg = true ->
        (lx_word cfg' = false <->
         (j < cn)%nat /\
         (u_ispunct icu cnext = false \/ cnext = 126 \/ cnext = 94))) /\
       (lx_word cfg = false -> lx_word cfg' = false)) /\
  stri_stats_latex icu [Some text_Kahler] = Ok (mkLatexStats 6 2 0 1 1 0).
Proof.
  split.
  - intros cs cn cfg Hst Hc j cnext. unfold latex_step.
    rewrite U8_NEXT_ascii by lia. rewrite Hst, Hc. simpl.
    eexists. split; [reflexivity|]. simpl. fold j.
    split; [reflexivity|]. split; [reflexivity|].
    subst cnext. destruct (U8_NEXT icu cs j cn) as [j' c']. simpl.
    unfold closes_word.
    destruct (j <? cn)%nat eqn:Hj.
    + apply Nat.ltb_lt in Hj. split.
      * intros Hw. rewrite Hw. split.
        -- intros H. split; trivial.
           destruct (u_ispunct icu c'); simpl in *; auto.
           destruct (c' =? 126) eqn:E1; [apply Z.eqb_eq in E1; auto|].
           destruct (c' =? 94) eqn:E2; [apply Z.eqb_eq in E2; auto|].
           discriminate.
        -- intros [_ [->|[->| ->]]]; simpl; trivial.
           ++ now destruct (u_ispunct icu 126).
           ++ now destruct (u_ispunct icu 94).
      * intros ->. now destruct (negb _ || _ || _).
    + apply Nat.ltb_ge in Hj. split.
      * intros Hw. rewrite Hw. split; [discriminate|intros [? _]; lia].
      * trivial.
  - rewrite stri_stats_latex_ascii by (trivial; reflexivity).
    vm_compute. reflexivity.
Qed.

Lemma C7_backslash_and_word_witness :
  (exists cfg',
     latex_step icu_ascii text_Kahler 8
       (mkLatexCfg 1 stStandard true (mkLatexStats 1 0 0 1 0 0)) = Ok cfg' /\
     lx_state cfg' = stControlSequence /\ lx_j cfg' = 2%nat /\
     (true = true ->
      (lx_word cfg' = false <->
       (2 < 8)%nat /\
       (ascii_ispunct 34 = false \/ 34 = 126 \/ 34 = 94))) /\
     (true = false -> lx_word cfg' = false)) /\
  stri_stats_latex icu_ascii [Some text_Kahler] = Ok (mkLatexStats 6 2 0 1 1 0).
Proof.
  destruct (C7_backslash_and_word icu_ascii icu_ascii_agrees) as (Hs & Hx).
  split; [|exact Hx].
  exact (Hs text_Kahler 8%nat
           (mkLatexCfg 1 stStandard true (mkLatexStats 1 0 0 1 0 0))
           eq_refl eq_refl).
Defined.

(** C9, as stated, fails: [stControlSymbol] is declared in the [enum] and
    never assigned to [state]; no text makes the scan enter it. *)
Lemma C9_ControlSymbol_never_entered :
  ~ exists icu cs stats cfg,
      latex_reaches icu cs (mkLatexCfg 0 stStandard false stats) cfg /\
      lx_state cfg = stControlSymbol.
Proof.
  intros (icu & cs & stats & cfg & Hr & Hst).
  apply (latex_reaches_state icu cs _ cfg) in Hr; [contradiction|discriminate].
Qed.

(** C9, amended: whatever the text, the state of the machine during the scan
    of an element is one of [stStandard], [stComment], [stControlSequence],
    [stCommand] and [stEnvironment]. *)
Theorem C9_states_of_the_scan (icu : ICU) (cs : string) (stats : LatexStats)
    (cfg : LatexCfg) :
  latex_reaches icu cs (mkLatexCfg 0 stStandard false stats) cfg ->
  lx_state cfg = stStandard \/ lx_state cfg = stComment \/
  lx_state cfg = stControlSequence \/ lx_state cfg = stCommand \/
  lx_state cfg = stEnvironment.
Proof.
  intros Hr. apply latex_reaches_state in Hr; [|discriminate].
  destruct (lx_state cfg); auto. contradiction.
Qed.

Lemma C9_states_of_the_scan_witness :
  let cfg := mkLatexCfg 2 stCommand false (mkLatexStats 0 2 0 0 1 0) in
  lx_state cfg = stStandard \/ lx_state cfg = stComment \/
  lx_state cfg = stControlSequence \/ lx_state cfg = stCommand \/
  lx_state cfg = stEnvironment.
Proof.
  apply (C9_states_of_the_scan icu_ascii text_xegin ls_zero).
  eapply reaches_step; [eapply reaches_step; [apply reaches_start| |]| |];
    [simpl; lia|reflexivity|simpl; lia|reflexivity].
Defined.

(** C3, as stated, fails: the label of an element is looked at in the turn of
    the loop for that element, and only when its text is neither NA nor
    empty.  With an NA text the label "bogus" is never looked at and the call
    returns; with the texts "ab", "cd" and the labels "word", "bogus" the
    call throws only after the element 0 has been processed (its matrix is
    stored, the engine has been called for it). *)
Lemma C3_label_looked_at_in_its_turn :
  stri__match_arg spec_stringi "bogus" boundary_opts = -1 /\
  stri_locate_boundaries toy_engine spec_stringi [None] [Some "bogus"%string] "en" =
  Normal (mkLocState None (-1) [matrix_NA_INTEGER_1_2] []) /\
  stri_locate_boundaries toy_engine spec_stringi
    [Some "ab"%string; Some "cd"%string] [Some "word"%string; Some "bogus"%string] "en" =
  Throw MSG__INCORRECT_MATCH_OPTION
    (mkLocState (Some (mkBreakIterator 3 "en" 0 [])) 3
       [IntMatrix [(1, 2)]; R_NilValue]
       [call_createInstance (Some 0%nat) 3; call_utext_openUTF8 0; call_setText 0]).
Proof. repeat split; vm_compute; reflexivity. Qed.

(** C3, amended: when the loop of [stri_locate_boundaries] comes to an
    element whose text is neither NA nor empty and whose label
    [stri__match_arg] rejects, the elements before it having been processed
    normally, the whole call throws the incorrect-option error, in the state
    those elements left; the label that goes with an NA or empty text is not
    looked at, the turn ends normally. *)
Theorem C3_rejected_label_throws (eng : BreakEngine) (sti : Stringi)
    (str boundary : list (option string)) (loc : string) :
  let vl := stri__recycling_rule sti (length str) (length boundary) in
  (forall pre i post st1 s b,
     vectorize_order sti (length boundary) vl = pre ++ i :: post ->
     run_loop (locate_boundaries_body eng sti str boundary loc) pre (fresh_state vl)
     = Normal st1 ->
     StriContainer_get str i = Some s -> s <> EmptyString ->
     StriContainer_get boundary i = Some b ->
     stri__match_arg sti b boundary_opts < 0 ->
     stri_locate_boundaries eng sti str boundary loc =
     Throw MSG__INCORRECT_MATCH_OPTION st1) /\
  (forall i st,
     StriContainer_get str i = None \/ StriContainer_get str i = Some EmptyString ->
     exists st', locate_boundaries_body eng sti str boundary loc i st = Normal st').
Proof.
  intros vl. split.
  - intros pre i post st1 s b Hord Hpre Hs Hne Hb Hk.
    unfold stri_locate_boundaries. fold vl. rewrite Hord, run_loop_app, Hpre.
    simpl. unfold locate_boundaries_body. rewrite Hs, Hb.
    destruct s as [|a s]; [contradiction|]. simpl.
    apply Z.ltb_lt in Hk. now rewrite Hk.
  - intros i st H. eexists. apply locate_boundaries_body_passed_over.
    unfold passed_over. tauto.
Qed.

Lemma C3_rejected_label_throws_witness :
  stri_locate_boundaries toy_engine spec_stringi
    [Some "ab"%string; Some "cd"%string] [Some "word"%string; Some "bogus"%string] "en" =
  Throw MSG__INCORRECT_MATCH_OPTION
    (mkLocState (Some (mkBreakIterator 3 "en" 0 [])) 3
       [IntMatrix [(1, 2)]; R_NilValue]
       [call_createInstance (Some 0%nat) 3; call_utext_openUTF8 0; call_setText 0]).
Proof.
  apply (proj1 (C3_rejected_label_throws toy_engine spec_stringi
                  [Some "ab"%string; Some "cd"%string]
                  [Some "word"%string; Some "bogus"%string] "en")
           [0%nat] 1%nat [] _ "cd"%string "bogus"%string).
  - reflexivity.
  - vm_compute. reflexivity.
  - reflexivity.
  - discriminate.
  - reflexivity.
  - vm_compute. reflexivity.
Defined.

(** C4: for a non-NA element of [stri_locate_words], what is stored is made
    of the candidate intervals whose rule status is not [UBRK_WORD_NONE], in
    their order, every candidate with that status being left out; when none
    is left, the NA matrix is stored and not a matrix of no rows. *)
Theorem C4_words_filtered (eng : BreakEngine) (sti : Stringi)
    (str : list (option string)) (loc : string) (st : LocState) (i : nat)
    (s : string) :
  stri_locate_words eng sti str loc = Normal st ->
  str !! i = Some (Some s) ->
  let kept :=
    map fst (List.filter is_word
               (candidates (rules_first eng 3 loc s) (rules_following eng 3 loc s))) in
  ret st !! i =
  Some match kept with
       | [] => matrix_NA_INTEGER_1_2
       | _ => IntMatrix (UTF8_to_UChar32_index sti s kept 1 0)
       end.
Proof.
  intros Hrun Hi kept.
  destruct (stri_locate_words_elements eng sti str loc st Hrun i _ Hi)
    as (x & Hx & Hret).
  rewrite Hret. f_equal. simpl in Hx. unfold text_element in Hx.
  destruct (U_FAILURE (utext_openUTF8_status eng s)); [discriminate|].
  destruct (U_FAILURE (setText_status eng 3 loc s)); [discriminate|].
  injection Hx as <-. rewrite words_loop_candidates. fold kept.
  now destruct kept.
Qed.

Lemma C4_words_filtered_witness :
  exists st,
    stri_locate_words toy_engine spec_stringi
      [Some "Hello  world"%string; Some "  "%string] "en" = Normal st /\
    ret st !! 0%nat = Some (IntMatrix [(1, 5); (8, 12)]) /\
    ret st !! 1%nat = Some matrix_NA_INTEGER_1_2.
Proof.
  eexists. split; [vm_compute; reflexivity|]. split.
  - apply (C4_words_filtered toy_engine spec_stringi
             [Some "Hello  world"%string; Some "  "%string] "en" _ 0%nat
             "Hello  world"%string); reflexivity.
  - apply (C4_words_filtered toy_engine spec_stringi
             [Some "Hello  world"%string; Some "  "%string] "en" _ 1%nat
             "  "%string); reflexivity.
Defined.

(** C5: for an element of [stri_locate_boundaries] whose text is NA, whose
    boundary kind is NA or whose text is empty, the turn stores the NA matrix
    at its index and ends normally, with the iterator and the record of the
    calls as they were; no call of the whole run is made for that element,
    and when the run returns, the NA matrix is what its index holds. *)
Theorem C5_NA_or_empty_passed_over (eng : BreakEngine) (sti : Stringi)
    (str boundary : list (option string)) (loc : string) (i : nat) :
  passed_over str boundary i ->
  let vl := stri__recycling_rule sti (length str) (length boundary) in
  (forall st,
     locate_boundaries_body eng sti str boundary loc i st =
     Normal (mkLocState (briter st) (last_boundary st)
               (<[i:=matrix_NA_INTEGER_1_2]> (ret st)) (calls st))) /\
  (forall st,
     outcome_state (stri_locate_boundaries eng sti str boundary loc) = Some st ->
     forall c, In c (calls st) -> call_index c <> Some i) /\
  (forall st,
     stri_locate_boundaries eng sti str boundary loc = Normal st ->
     In i (vectorize_order sti (length boundary) vl) -> (i < vl)%nat ->
     ret st !! i = Some matrix_NA_INTEGER_1_2).
Proof.
  intros Hp vl. split; [|split].
  - intros st. now apply locate_boundaries_body_passed_over.
  - intros st Hst c Hc Hi. unfold stri_locate_boundaries in Hst.
    destruct (run_loop_calls eng sti _ _ _ _ _ _ Hst c Hc)
      as [[]|(j & _ & Hj & Hnp)].
    rewrite Hi in Hj. injection Hj as <-. contradiction.
  - intros st Hrun Hin Hlt.
    destruct (stri_locate_boundaries_elements eng sti _ _ _ _ Hrun i Hin Hlt)
      as (x & Hx & Hret).
    rewrite (boundaries_element_passed_over eng sti _ _ _ _ Hp) in Hx.
    now injection Hx as <-.
Qed.

Lemma C5_NA_or_empty_passed_over_witness :
  locate_boundaries_body toy_engine spec_stringi
    [Some "ab"%string; None] [Some "word"%string] "en" 1 (fresh_state 2) =
  Normal (mkLocState None (-1) [R_NilValue; matrix_NA_INTEGER_1_2] []) /\
  exists st,
    stri_locate_boundaries toy_engine spec_stringi
      [Some "ab"%string; None] [Some "word"%string] "en" = Normal st /\
    (forall c, In c (calls st) -> call_index c <> Some 1%nat) /\
    ret st !! 1%nat = Some matrix_NA_INTEGER_1_2.
Proof.
  destruct (C5_NA_or_empty_passed_over toy_engine spec_stringi
              [Some "ab"%string; None] [Some "word"%string] "en" 1
              (or_introl eq_refl)) as (Hbody & Hcalls & Hret).
  split; [exact (Hbody (fresh_state 2))|].
  eexists. split; [vm_compute; reflexivity|]. split.
  - apply Hcalls. reflexivity.
  - apply Hret; [reflexivity|simpl; auto|simpl; lia].
Defined.

(** C8: keeping the iterator from one element to the next changes no result.
    When a call of [stri_locate_boundaries] returns, what it holds at each
    index is what a call for that element alone (its text, its kind) returns;
    and when each of these calls returns, so does the call for the batch.
    The helpers are taken as the package has them: a call for one text and
    one kind has one turn, for the index 0, and the loop of the batch visits
    the indices below the length of the result. *)
Theorem C8_iterator_reuse_transparent (eng : BreakEngine) (sti : Stringi)
    (str boundary : list (option string)) (loc : string) :
  let vl := stri__recycling_rule sti (length str) (length boundary) in
  stri__recycling_rule sti 1 1 = 1%nat ->
  vectorize_order sti 1 1 = [0%nat] ->
  (forall i, In i (vectorize_order sti (length boundary) vl) <-> (i < vl)%nat) ->
  (forall st,
     stri_locate_boundaries eng sti str boundary loc = Normal st ->
     forall i, (i < vl)%nat ->
       exists st_i x,
         stri_locate_boundaries eng sti
           [StriContainer_get str i] [StriContainer_get boundary i] loc
         = Normal st_i /\
         ret st_i = [x] /\ ret st !! i = Some x) /\
  ((forall i, (i < vl)%nat ->
      exists st_i,
        stri_locate_boundaries eng sti
          [StriContainer_get str i] [StriContainer_get boundary i] loc
        = Normal st_i) ->
   exists st, stri_locate_boundaries eng sti str boundary loc = Normal st).
Proof.
  intros vl H1 H2 H3. split.
  - intros st Hrun i Hlt.
    destruct (stri_locate_boundaries_elements eng sti _ _ _ _ Hrun i
                (proj2 (H3 i) Hlt) Hlt) as (x & Hx & Hret).
    pose proof (single_element_call eng sti (StriContainer_get str i)
                  (StriContainer_get boundary i) loc H1 H2) as Hone.
    rewrite Hx in Hone. destruct Hone as (st_i & Hone & Hret_i). eauto.
  - intros Hall. unfold stri_locate_boundaries. fold vl.
    apply (run_loop_normal (iterator_for eng loc) _
             (fun i => boundaries_element eng sti loc (StriContainer_get str i)
                         (StriContainer_get boundary i))).
    + apply locate_boundaries_body_element.
    + apply fresh_state_iterator.
    + intros i Hi. apply H3 in Hi. destruct (Hall i Hi) as [st_i Hst_i].
      pose proof (single_element_call eng sti (StriContainer_get str i)
                    (StriContainer_get boundary i) loc H1 H2) as Hone.
      destruct (boundaries_element eng sti loc _ _) as [x|e|]; [eauto| |].
      * destruct Hone as [st' Hone]. congruence.
      * congruence.
Qed.

Lemma C8_iterator_reuse_transparent_witness :
  exists st,
    stri_locate_boundaries toy_engine spec_stringi batch_texts batch_kinds "en"
    = Normal st /\
    forall i, (i < 4)%nat ->
      exists st_i x,
        stri_locate_boundaries toy_engine spec_stringi
          [StriContainer_get batch_texts i] [StriContainer_get batch_kinds i] "en"
        = Normal st_i /\
        ret st_i = [x] /\ ret st !! i = Some x.
Proof.
  assert (forall i, In i (seq 0 4) <-> (i < 4)%nat) as H3
    by (intros i; rewrite in_seq; lia).
  destruct (C8_iterator_reuse_transparent toy_engine spec_stringi
              batch_texts batch_kinds "en" eq_refl eq_refl H3) as (Hone & Hall).
  destruct Hall as [st Hst].
  - intros i Hi.
    destruct i as [|[|[|[|i]]]]; [eexists; vm_compute; reflexivity..|].
    simpl in Hi. lia.
  - exists st. split; [exact Hst|]. exact (Hone st Hst).
Defined.

Lemma toy_engine_ascending : ascending toy_engine.
Proof.
  intros kind loc text. simpl.
  assert (forall s pos, ascending_from pos (word_breaks s pos)) as Hw.
  { induction s as [|a s IH]; intros pos; simpl; trivial.
    destruct s as [|b s']; [simpl; split; [lia|trivial]|].
    destruct (Bool.eqb _ _).
    - specialize (IH (pos + 1)).
      destruct (word_breaks (String b s') (pos + 1)) as [|[m t] l]; simpl in *;
        trivial. split; [lia|tauto].
    - simpl. split; [lia|apply IH]. }
  assert (forall s pos, ascending_from pos (char_breaks s pos)) as Hc.
  { induction s as [|a s IH]; intros pos; simpl; trivial. split; [lia|apply IH]. }
  destruct (kind =? 3); [apply Hw|].
  destruct (kind =? 0); [apply Hc|].
  destruct text; simpl; trivial. split; [lia|trivial].
Defined.






(** * Further properties of the statistics functions *)

(** X1: with ICU's decoder (its multi-byte step consumes trail bytes only
    and never gives U+000A), each of [stri_stats_general] and
    [stri_stats_latex] fails exactly when some non-NA element has a line
    feed, and the line-feed error is the only one either ever raises (the
    [default] branch of the [switch] of [stri_stats_latex] included). *)
Theorem X1_stats_fail_exactly_on_line_feed (icu : ICU)
    (Htrail : consumes_trail_bytes icu) (Hm : multibyte_not_LF icu)
    (str : list (option string)) :
  ((exists e, stri_stats_general icu str = Error e) <->
   exists cs, In (Some cs) str /\ contains_LF cs) /\
  ((exists e, stri_stats_latex icu str = Error e) <->
   exists cs, In (Some cs) str /\ contains_LF cs) /\
  (forall e, stri_stats_general icu str = Error e -> e = MSG__NEWLINE_FOUND) /\
  (forall e, stri_stats_latex icu str = Error e -> e = MSG__NEWLINE_FOUND).
Proof.
  unfold stri_stats_general, stri_stats_latex. repeat split.
  - intros [e He]. eapply general_loop_error_LF; eauto.
  - intros (cs & Hin & HLF). eexists. now apply general_loop_LF with cs.
  - intros [e He]. eapply latex_loop_error_LF; eauto.
  - intros (cs & Hin & HLF). eexists. now apply latex_loop_LF with cs.
  - intros e. apply general_loop_error.
  - intros e. apply latex_loop_error.
Qed.

Lemma icu_ascii_not_LF : multibyte_not_LF icu_ascii.
Proof.
  intros s i len c k c'. simpl. unfold utf8_multibyte.
  destruct (if (194 <=? c) && (c <=? 223) then _ else _) as [k0 c0].
  intros [= _ <-]. destruct (c0 <? 128) eqn:E; [lia|].
  apply Z.ltb_ge in E. lia.
Defined.

Lemma X1_stats_fail_exactly_on_line_feed_witness :
  (exists e, stri_stats_general icu_ascii [Some "ab"%string; None] = Error e) <->
  exists cs, In (Some cs) [Some "ab"%string; None] /\ contains_LF cs.
Proof.
  exact (proj1 (X1_stats_fail_exactly_on_line_feed icu_ascii icu_ascii_trail
                  icu_ascii_not_LF [Some "ab"%string; None])).
Defined.

(** X2: on a vector whose counts an [int] holds (at most 2^31 - 1 non-NA
    elements, at most 2^31 - 1 bytes in them), in the record
    [stri_stats_general] returns, counters as [int]s, [Lines] is the number
    of non-NA elements, the non-empty lines are at most the lines and at
    most the non-white characters, the non-white characters are at most the
    characters, and the characters are at most the bytes of the non-NA
    elements; no counter is negative. *)
Theorem X2_general_stats_bounds (icu : ICU) (str : list (option string))
    (r : GeneralStats) :
  counts_fit_int str ->
  stri_stats_general_int icu str = Ok r ->
  gsNumLines r = count_texts str /\
  0 <= gsNumLinesNonEmpty r <= gsNumLines r /\
  gsNumLinesNonEmpty r <= gsNumCharsNonWhite r /\
  gsNumCharsNonWhite r <= gsNumChars r /\
  gsNumChars r <= total_bytes str.
Proof.
  intros Hfit. rewrite (stri_stats_general_int_fits icu str Hfit).
  unfold stri_stats_general. intros H. apply general_loop_changes in H.
  simpl in H. lia.
Qed.

Lemma X2_general_stats_bounds_witness :
  let r := mkGeneralStats 2 1 5 4 in
  gsNumLines r = count_texts [Some "ab cd"%string; None; Some ""%string] /\
  0 <= gsNumLinesNonEmpty r <= gsNumLines r /\
  gsNumLinesNonEmpty r <= gsNumCharsNonWhite r /\
  gsNumCharsNonWhite r <= gsNumChars r /\
  gsNumChars r <= total_bytes [Some "ab cd"%string; None; Some ""%string].
Proof.
  assert (counts_fit_int [Some "ab cd"%string; None; Some ""%string]) as Hfit
    by (unfold counts_fit_int, INT_MAX; simpl; lia).
  exact (X2_general_stats_bounds icu_ascii
           [Some "ab cd"%string; None; Some ""%string] _ Hfit eq_refl).
Defined.

(** X3: on a vector whose non-NA elements are ASCII texts without a line
    feed and whose counts an [int] holds, [stri_stats_general], counters as
    [int]s, returns the record read off the bytes: a line per non-NA
    element, a character per byte, a non-white character per byte that ICU
    does not class as white space, and a non-empty line per element that
    has such a byte.  The bound on the size is needed: when the texts have
    2^31 bytes between them, [Chars] is -2^31. *)
Theorem X3_general_stats_of_ascii (icu : ICU) (str : list (option string)) :
  (forall cs, In (Some cs) str -> is_ascii_text cs /\ ~ contains_LF cs) ->
  (counts_fit_int str ->
   stri_stats_general_int icu str = Ok (general_stats_of_bytes icu str)) /\
  (total_bytes str = 2147483648 ->
   exists r,
     stri_stats_general_int icu str = Ok r /\ gsNumChars r = - 2147483648).
Proof.
  intros H. pose proof (general_loop_ascii icu str H) as Hr. split.
  - intros Hfit. now rewrite (stri_stats_general_int_fits icu str Hfit).
  - intros Hb. rewrite stri_stats_general_int_wrap, Hr. simpl.
    eexists. split; [reflexivity|]. simpl.
    assert (gsNumChars (general_stats_of_bytes icu str) = total_bytes str) as ->.
    { clear. induction str as [|[cs|] str IH]; simpl; trivial. now rewrite IH. }
    rewrite Hb. reflexivity.
Qed.

Lemma X3_general_stats_of_ascii_witness :
  stri_stats_general_int icu_ascii
    [Some "ab cd"%string; None; Some "  "%string]
  = Ok (mkGeneralStats 2 1 7 4).
Proof.
  apply (X3_general_stats_of_ascii icu_ascii
           [Some "ab cd"%string; None; Some "  "%string]).
  - intros cs [[= <-]|[[=]|[[= <-]|[]]]]; split;
      try (apply all_ascii_text; reflexivity);
      intros [p Hp]; do 6 (destruct p as [|p]; [discriminate|]); discriminate.
  - unfold counts_fit_int, INT_MAX; simpl; lia.
Defined.

(** X4: on a vector whose non-NA elements are ASCII texts with no [%] and no
    line feed, and that have at most 2^31 - 1 bytes between them,
    [stri_stats_latex], counters as [int]s, returns a record in which every
    byte is counted once: [CharsWord + CharsCmdEnvir + CharsWhite] is the
    number of bytes of the non-NA elements, whatever ICU takes for a letter
    or a digit, and none of the three is negative. *)
Theorem X4_latex_counts_every_character (icu : ICU)
    (str : list (option string)) :
  (forall cs, In (Some cs) str ->
     is_ascii_text cs /\ no_byte 37 cs /\ ~ contains_LF cs) ->
  total_bytes str <= INT_MAX ->
  exists r,
    stri_stats_latex_int icu str = Ok r /\
    0 <= lsCharsWord r /\ 0 <= lsCharsCmdEnvir r /\ 0 <= lsCharsWhite r /\
    lsCharsWord r + lsCharsCmdEnvir r + lsCharsWhite r = total_bytes str.
Proof.
  intros H Hb.
  destruct (latex_loop_ascii_counts icu str H ls_zero) as (r & Hr & Hc).
  pose proof (latex_loop_nondecreasing icu str _ _ Hr) as Hn.
  unfold ls_chars in Hc. simpl in Hc, Hn.
  exists r. rewrite stri_stats_latex_int_wrap. unfold stri_stats_latex.
  rewrite Hr. simpl. rewrite ls_int_fits by (unfold ls_chars; lia).
  split; [reflexivity|]. lia.
Qed.

Lemma X4_latex_counts_every_character_witness :
  exists r,
    stri_stats_latex_int icu_ascii
      [Some text_begin_end; None; Some "a 1"%string] = Ok r /\
    0 <= lsCharsWord r /\ 0 <= lsCharsCmdEnvir r /\ 0 <= lsCharsWhite r /\
    lsCharsWord r + lsCharsCmdEnvir r + lsCharsWhite r = 34.
Proof.
  apply (X4_latex_counts_every_character icu_ascii
           [Some text_begin_end; None; Some "a 1"%string]).
  - intros cs [[= <-]|[[=]|[[= <-]|[]]]]; repeat split;
      try (apply all_ascii_text; reflexivity);
      try (apply count_bytes_no_byte; [discriminate|reflexivity]);
      apply count_bytes_no_LF; reflexivity.
  - unfold INT_MAX. simpl. lia.
Defined.

(** X5: a comment runs to the end of the element.  Once the scan is in
    [stComment] no counter changes any more and the state stays; so an
    element that starts with [%] adds nothing to the record of a call that
    returns.  A [%] that follows a backslash starts no comment: it is counted
    as a command. *)
Theorem X5_comment_to_end_of_element (icu : ICU) :
  (forall fuel cs cn cfg cfg',
     lx_state cfg = stComment ->
     latex_scan icu fuel cs cn cfg = Ok cfg' ->
     lx_stats cfg' = lx_stats cfg /\ lx_state cfg' = stComment) /\
  (forall cs str r,
     uint8_at cs 0 = 37 ->
     stri_stats_latex icu (Some cs :: str) = Ok r ->
     stri_stats_latex icu str = Ok r) /\
  (forall cs cn cfg,
     lx_state cfg = stControlSequence ->
     uint8_at cs (lx_j cfg) = 37 ->
     exists cfg',
       latex_step icu cs cn cfg = Ok cfg' /\ lx_state cfg' <> stComment /\
       lsCmd (lx_stats cfg') = lsCmd (lx_stats cfg) + 1).
Proof.
  split; [|split].
  - intros fuel cs cn cfg cfg' Hst Hs.
    destruct (latex_scan_comment icu cs cn fuel cfg cfg' Hst Hs) as (? & ? & _).
    auto.
  - intros cs str r H37. unfold stri_stats_latex. simpl.
    destruct (String.length cs) as [|n] eqn:Hlen.
    { rewrite uint8_at_beyond in H37 by lia. discriminate. }
    simpl. unfold latex_step at 1. rewrite U8_NEXT_ascii by (simpl; lia).
    simpl lx_j. rewrite H37. simpl.
    destruct (latex_scan icu n cs (S n) _) as [cfg|e] eqn:Hs; [|discriminate].
    apply latex_scan_comment in Hs; [|reflexivity].
    destruct Hs as (-> & _). trivial.
  - intros cs cn cfg Hst H37. unfold latex_step.
    rewrite U8_NEXT_ascii by lia. rewrite Hst, H37. simpl.
    destruct (u_isUAlphabetic icu 37); eexists;
      (split; [reflexivity|]); simpl; (split; [discriminate|reflexivity]).
Qed.

Lemma X5_comment_to_end_of_element_witness :
  stri_stats_latex icu_ascii [Some "a"%string] = Ok (mkLatexStats 1 0 0 1 0 0).
Proof.
  apply (proj1 (proj2 (X5_comment_to_end_of_element icu_ascii))
           "% \begin{x} word"%string [Some "a"%string]); reflexivity.
Defined.

(** X6: on a vector whose non-NA elements have at most 2^31 - 1 bytes
    between them, and for a decoder that consumes trail bytes only, in the
    record [stri_stats_latex] returns, counters as [int]s, no counter is
    negative, the words are at most the word characters, the commands plus
    five times the environments are at most [CharsCmdEnvir], and the
    characters counted are at most the bytes of the non-NA elements. *)
Theorem X6_latex_stats_bounds (icu : ICU) (Htrail : consumes_trail_bytes icu)
    (str : list (option string)) (r : LatexStats) :
  total_bytes str <= INT_MAX ->
  stri_stats_latex_int icu str = Ok r ->
  0 <= lsWords r <= lsCharsWord r /\
  0 <= lsCmd r /\ 0 <= lsEnvir r /\
  lsCmd r + 5 * lsEnvir r <= lsCharsCmdEnvir r /\
  0 <= lsCharsWhite r /\
  lsCharsWord r + lsCharsCmdEnvir r + lsCharsWhite r <= total_bytes str.
Proof.
  intros Hb. rewrite (stri_stats_latex_int_fits icu Htrail str Hb).
  unfold stri_stats_latex. intros H.
  apply (latex_loop_changes icu Htrail) in H. unfold ls_chars in H.
  simpl in H. lia.
Qed.

Lemma X6_latex_stats_bounds_witness :
  let r := mkLatexStats 1 30 0 1 0 1 in
  0 <= lsWords r <= lsCharsWord r /\
  0 <= lsCmd r /\ 0 <= lsEnvir r /\
  lsCmd r + 5 * lsEnvir r <= lsCharsCmdEnvir r /\
  0 <= lsCharsWhite r /\
  lsCharsWord r + lsCharsCmdEnvir r + lsCharsWhite r
  <= total_bytes [Some text_begin_end].
Proof.
  assert (stri_stats_latex_int icu_ascii [Some text_begin_end]
          = Ok (mkLatexStats 1 30 0 1 0 1)) as H by (vm_compute; reflexivity).
  assert (total_bytes [Some text_begin_end] <= INT_MAX) as Hb
    by (vm_compute; discriminate).
  exact (X6_latex_stats_bounds icu_ascii icu_ascii_trail [Some text_begin_end]
           _ Hb H).
Defined.

(** X7: the byte index of the scan of [stri_stats_latex] stays within the
    text (for a decoder that consumes trail bytes only): in every
    configuration the scan goes through it is at most the length, the skips
    of "egin" and "nd" included, and the scan ends with the index at the
    length exactly. *)
Theorem X7_latex_index_within_text (icu : ICU)
    (Htrail : consumes_trail_bytes icu) (cs : string) (stats : LatexStats) :
  (forall cfg,
     latex_reaches icu cs (mkLatexCfg 0 stStandard false stats) cfg ->
     (lx_j cfg <= String.length cs)%nat) /\
  (forall cfg',
     latex_scan icu (String.length cs) cs (String.length cs)
       (mkLatexCfg 0 stStandard false stats) = Ok cfg' ->
     lx_j cfg' = String.length cs).
Proof.
  split.
  - intros cfg Hr. eapply latex_reaches_within; eauto. simpl. lia.
  - intros cfg' Hs.
    assert (String.length cs <= lx_j cfg')%nat as Hex.
    { eapply latex_scan_exit; [|exact Hs]. simpl. lia. }
    apply latex_scan_reaches with (c0 := mkLatexCfg 0 stStandard false stats)
      in Hs; [|apply reaches_start].
    apply (latex_reaches_within icu Htrail) in Hs; [lia|simpl; lia].
Qed.

Lemma X7_latex_index_within_text_witness :
  lx_j (mkLatexCfg 31 stStandard false (mkLatexStats 1 30 0 1 0 1))
  = String.length text_begin_end.
Proof.
  apply (proj2 (X7_latex_index_within_text icu_ascii icu_ascii_trail
                  text_begin_end ls_zero)).
  vm_compute. reflexivity.
Defined.

(** * Further properties of the boundary functions *)

Lemma words_loop_disjoint pending : forall last_match bound,
  ascending_from last_match pending -> bound <= last_match ->
  disjoint_from bound (words_loop last_match pending).
Proof.
  induction pending as [|[m t] rest IH]; intros last_match bound; simpl; trivial.
  intros [Hle Hasc] Hb. destruct (m =? BreakIterator_DONE); simpl; trivial.
  destruct (negb (t =? UBRK_WORD_NONE)); simpl.
  - repeat split; trivial. apply IH; trivial. lia.
  - apply IH; trivial. lia.
Qed.

Lemma words_loop_incl pending : forall last_match,
  incl (words_loop last_match pending) (boundaries_loop last_match pending).
Proof.
  induction pending as [|[m t] rest IH]; intros last_match; simpl.
  - apply incl_refl.
  - destruct (m =? BreakIterator_DONE); [apply incl_refl|].
    destruct (negb (t =? UBRK_WORD_NONE)).
    + intros iv [<-|Hin]; [now left|right; now apply IH].
    + intros iv Hin. right. now apply IH.
Qed.

Section MoreLocateFacts.
Variable eng : BreakEngine.
Variable sti : Stringi.

Lemma run_loop_defined (P : LocState -> Prop) body (el : nat -> Element) :
  (forall i st, P st -> turn_agrees P i st (body i st) (el i)) ->
  forall order st, P st ->
    (forall i, In i order -> el i <> el_undefined) ->
    run_loop body order st <> Undefined.
Proof.
  intros Hbody. induction order as [|j order IH]; intros st HP Hall; simpl;
    [discriminate|].
  pose proof (Hbody j st HP) as Hj. unfold turn_agrees in Hj.
  pose proof (Hall j (or_introl eq_refl)) as Hd.
  destruct (el j) as [x|e|]; [| |contradiction].
  - destruct Hj as (st1 & -> & HP1 & _). apply IH; trivial.
    intros i Hi. apply Hall. now right.
  - destruct Hj as (st1 & ->). discriminate.
Qed.

Lemma text_element_value loop on_none k loc s :
  (exists x, text_element eng sti loop on_none k loc s = el_value x) <->
  U_FAILURE (utext_openUTF8_status eng s) = false /\
  U_FAILURE (setText_status eng k loc s) = false.
Proof.
  unfold text_element.
  destruct (U_FAILURE (utext_openUTF8_status eng s)).
  - split; [intros [x H]; discriminate|intros [H _]; discriminate].
  - destruct (U_FAILURE (setText_status eng k loc s)).
    + split; [intros [x H]; discriminate|intros [_ H]; discriminate].
    + split; eauto.
Qed.

Lemma text_element_defined loop on_none k loc s :
  text_element eng sti loop on_none k loc s <> el_undefined.
Proof.
  unfold text_element.
  destruct (U_FAILURE (utext_openUTF8_status eng s)); [discriminate|].
  destruct (U_FAILURE (setText_status eng k loc s)); discriminate.
Qed.

Lemma text_element_not_Nil loop k loc s x :
  text_element eng sti loop (Some matrix_NA_INTEGER_1_2) k loc s = el_value x ->
  x <> R_NilValue.
Proof.
  unfold text_element.
  destruct (U_FAILURE (utext_openUTF8_status eng s)); [discriminate|].
  destruct (U_FAILURE (setText_status eng k loc s)); [discriminate|].
  intros [= <-]. destruct (loop _ _); discriminate.
Qed.

(** The calls a turn of [stri_locate_words] adds: none creates an iterator,
    and all are for its own element, which is not NA. *)
Lemma locate_words_body_calls str i st st' :
  outcome_state (locate_words_body eng sti str i st) = Some st' ->
  exists more,
    calls st' = calls st ++ more /\
    Forall (fun c => is_createInstance c = false /\ call_index c = Some i /\
                     StriContainer_get str i <> None) more.
Proof.
  unfold locate_words_body.
  destruct (StriContainer_get str i) as [s|] eqn:Hg.
  - unfold locate_in_text.
    destruct (U_FAILURE (utext_openUTF8_status eng s)); simpl.
    + intros [= <-]. simpl. eexists. split; [reflexivity|].
      repeat constructor; discriminate.
    + destruct (briter st) as [it|]; [|discriminate].
      destruct (U_FAILURE (setText_status eng _ _ s)); simpl;
        intros [= <-]; simpl; rewrite <- app_assoc; eexists;
        (split; [reflexivity|]); repeat constructor; discriminate.
  - simpl. intros [= <-]. simpl. exists []. split; [now rewrite app_nil_r|].
    constructor.
Qed.

Lemma run_loop_words_calls str order : forall st st',
  outcome_state (run_loop (locate_words_body eng sti str) order st) = Some st' ->
  exists more,
    calls st' = calls st ++ more /\
    Forall (fun c => is_createInstance c = false /\
                     exists i, call_index c = Some i /\
                               StriContainer_get str i <> None) more.
Proof.
  induction order as [|j order IH]; intros st st'; simpl.
  - intros [= <-]. exists []. split; [now rewrite app_nil_r|constructor].
  - destruct (locate_words_body eng sti str j st) as [st1|e st1|] eqn:Hb;
      [| |discriminate].
    + assert (outcome_state (locate_words_body eng sti str j st) = Some st1)
        as Hb' by now rewrite Hb.
      destruct (locate_words_body_calls _ _ _ _ Hb') as (m1 & Hm1 & Hf1).
      intros H. destruct (IH _ _ H) as (m2 & Hm2 & Hf2).
      exists (m1 ++ m2). split; [now rewrite Hm2, Hm1, app_assoc|].
      apply List.Forall_app. split; trivial.
      eapply List.Forall_impl; [|exact Hf1]. intros c (? & ? & ?). eauto.
    + assert (outcome_state (locate_words_body eng sti str j st) = Some st1)
        as Hb' by now rewrite Hb.
      destruct (locate_words_body_calls _ _ _ _ Hb') as (m1 & Hm1 & Hf1).
      simpl. intros [= <-]. exists m1. split; trivial.
      eapply List.Forall_impl; [|exact Hf1]. intros c (? & ? & ?). eauto.
Qed.

Lemma filter_no_createInstance more :
  Forall (fun c => is_createInstance c = false) more ->
  List.filter is_createInstance more = [].
Proof.
  induction 1 as [|c more Hc _ IH]; simpl; trivial. now rewrite Hc.
Qed.

(** The calls [locate_in_text] adds create no iterator. *)
Lemma locate_in_text_creates loop on_none i s st st' :
  outcome_state (locate_in_text eng sti loop on_none i s st) = Some st' ->
  List.filter is_createInstance (calls st')
  = List.filter is_createInstance (calls st) /\
  last_boundary st' = last_boundary st.
Proof.
  unfold locate_in_text.
  destruct (U_FAILURE (utext_openUTF8_status eng s)); simpl.
  - intros [= <-]. simpl. rewrite List.filter_app. simpl.
    now rewrite app_nil_r.
  - destruct (briter st) as [it|]; [|discriminate].
    destruct (U_FAILURE (setText_status eng _ _ s)); simpl;
      intros [= <-]; simpl; rewrite !List.filter_app; simpl;
      now rewrite !app_nil_r.
Qed.

Lemma locate_boundaries_body_one_creation str boundary loc k i st st' :
  (forall b, ~ passed_over str boundary i ->
     StriContainer_get boundary i = Some b ->
     stri__match_arg sti b boundary_opts = k) ->
  one_creation k st ->
  outcome_state (locate_boundaries_body eng sti str boundary loc i st) = Some st' ->
  one_creation k st'.
Proof.
  intros Hk Hinv. unfold locate_boundaries_body.
  destruct (StriContainer_get str i) as [s|] eqn:Hs;
    [destruct (StriContainer_get boundary i) as [b|] eqn:Hb|];
    try (simpl; intros [= <-]; exact Hinv).
  destruct (String.length s =? 0)%nat eqn:El;
    [simpl; intros [= <-]; exact Hinv|].
  rewrite (Hk b); trivial.
  2:{ unfold passed_over. rewrite Hs, Hb.
      intros [?|[?|[= ->]]]; discriminate. }
  destruct (k <? 0); [simpl; intros [= <-]; exact Hinv|].
  unfold open_BreakIterator.
  destruct (last_boundary st =? k) eqn:Ek; simpl.
  - apply Z.eqb_eq in Ek. intros H.
    apply locate_in_text_creates in H as [Hf Hl].
    right. rewrite Hf, Hl. split; trivial.
    destruct Hinv as [[_ ->]|[_ ?]]; simpl; lia.
  - apply Z.eqb_neq in Ek. destruct Hinv as [[Hlb Hnone]|[? _]]; [|congruence].
    destruct (createInstance eng k loc) as [[it status]|].
    + destruct (U_FAILURE status).
      * simpl. intros [= <-]. right. simpl. rewrite List.filter_app, Hnone.
        simpl. split; [trivial|lia].
      * intros H. apply locate_in_text_creates in H as [Hf Hl].
        right. rewrite Hf, Hl. simpl. rewrite List.filter_app, Hnone.
        simpl. split; [trivial|lia].
    + intros H. apply locate_in_text_creates in H as [Hf Hl].
      right. rewrite Hf, Hl. simpl. rewrite Hnone. simpl. split; [trivial|lia].
Qed.

Lemma run_loop_one_creation str boundary loc k order : forall st st',
  (forall i b, In i order -> ~ passed_over str boundary i ->
     StriContainer_get boundary i = Some b ->
     stri__match_arg sti b boundary_opts = k) ->
  one_creation k st ->
  outcome_state
    (run_loop (locate_boundaries_body eng sti str boundary loc) order st) = Some st' ->
  one_creation k st'.
Proof.
  induction order as [|j order IH]; intros st st' Hk Hinv; simpl.
  - intros [= <-]. exact Hinv.
  - destruct (locate_boundaries_body eng sti str boundary loc j st)
      as [st1|e st1|] eqn:Hb; [| |discriminate].
    + apply IH; [intros i b Hi; apply Hk; now right|].
      eapply locate_boundaries_body_one_creation; [|exact Hinv|now rewrite Hb].
      intros b. apply Hk. now left.
    + simpl. intros [= <-].
      eapply locate_boundaries_body_one_creation; [|exact Hinv|now rewrite Hb].
      intros b. apply Hk. now left.
Qed.

Lemma boundaries_element_value str boundary loc i :
  (exists x, boundaries_element eng sti loc (StriContainer_get str i)
               (StriContainer_get boundary i) = el_value x) <->
  processed_well eng sti str boundary loc i.
Proof.
  unfold processed_well, passed_over, boundaries_element.
  destruct (StriContainer_get str i) as [s|]; [|split; eauto].
  destruct (StriContainer_get boundary i) as [b|]; [|split; eauto].
  destruct (String.length s =? 0)%nat eqn:El.
  { assert (s = EmptyString) as -> by (destruct s; [trivial|discriminate]).
    split; eauto. }
  assert (s <> EmptyString) as Hne by (intros ->; discriminate).
  set (k := stri__match_arg sti b boundary_opts).
  assert (forall A : Prop,
            (Some s = None \/ Some b = None \/ Some s = Some EmptyString) \/ A <-> A)
    as Hdrop.
  { intros A. split; [intros [[?|[?|[= ?]]]|?]; congruence|auto]. }
  rewrite Hdrop.
  destruct (k <? 0) eqn:Ek.
  { apply Z.ltb_lt in Ek. split; [intros [x H]; discriminate|].
    intros (s' & b' & [= <-] & [= <-] & Hk & _). fold k in Hk. lia. }
  apply Z.ltb_ge in Ek.
  destruct (kind_has_case k) eqn:Hc.
  - destruct (U_FAILURE (createInstance_status eng k loc)) eqn:Hf.
    + split; [intros [x H]; discriminate|].
      intros (s' & b' & [= <-] & [= <-] & _ & _ & H & _). fold k in H. congruence.
    + rewrite text_element_value. split.
      * intros [H1 H2]. exists s, b. fold k. auto 10.
      * intros (s' & b' & [= <-] & [= <-] & _ & _ & _ & H1 & H2). auto.
  - split.
    + destruct (U_FAILURE (utext_openUTF8_status eng s)); intros [x H]; discriminate.
    + intros (s' & b' & [= <-] & [= <-] & _ & H & _). fold k in H. congruence.
Qed.

End MoreLocateFacts.

(** X8: [stri_locate_words] returns exactly when no call to ICU fails: the
    creation of the word iterator, and for every non-NA text the opening of
    the text and [setText].  It never ends in the undefined way.  When it
    returns, the result has one entry per element of [str] and every entry
    has been set. *)
Theorem X8_locate_words_returns (eng : BreakEngine) (sti : Stringi)
    (str : list (option string)) (loc : string) :
  ((exists st, stri_locate_words eng sti str loc = Normal st) <->
   U_FAILURE (createInstance_status eng 3 loc) = false /\
   forall s, In (Some s) str ->
     U_FAILURE (utext_openUTF8_status eng s) = false /\
     U_FAILURE (setText_status eng 3 loc s) = false) /\
  stri_locate_words eng sti str loc <> Undefined /\
  (forall st, stri_locate_words eng sti str loc = Normal st ->
     length (ret st) = length str /\
     forall i, (i < length str)%nat ->
       exists x, ret st !! i = Some x /\ x <> R_NilValue).
Proof.
  split; [split|split].
  - intros [st Hrun]. split.
    + unfold stri_locate_words in Hrun.
      now destruct (U_FAILURE (createInstance_status eng 3 loc)).
    + intros s Hin. apply list_elem_of_In, list_elem_of_lookup in Hin as [i Hi].
      destruct (stri_locate_words_elements eng sti str loc st Hrun i _ Hi)
        as (x & Hx & _).
      apply (text_element_value eng sti words_loop
               (Some matrix_NA_INTEGER_1_2) 3 loc s).
      exists x. exact Hx.
  - intros [Hc Hall]. unfold stri_locate_words. rewrite Hc.
    apply (run_loop_normal (word_iterator loc) _
             (fun i => words_element eng sti loc (StriContainer_get str i))
             (locate_words_body_element eng sti str loc)).
    + eexists. simpl. eauto.
    + intros i Hi. apply in_seq in Hi.
      destruct (lookup_lt_is_Some_2 str i ltac:(lia)) as [o Ho].
      rewrite (StriContainer_get_lookup _ _ _ Ho).
      destruct o as [s|]; simpl; [|eauto].
      apply text_element_value, Hall.
      apply list_elem_of_In, list_elem_of_lookup. eauto.
  - unfold stri_locate_words.
    destruct (U_FAILURE (createInstance_status eng 3 loc)); [discriminate|].
    apply (run_loop_defined (word_iterator loc) _
             (fun i => words_element eng sti loc (StriContainer_get str i))
             (locate_words_body_element eng sti str loc)).
    + eexists. simpl. eauto.
    + intros i _. unfold words_element.
      destruct (StriContainer_get str i); [apply text_element_defined|discriminate].
  - intros st Hrun. split.
    + unfold stri_locate_words in Hrun.
      destruct (U_FAILURE (createInstance_status eng 3 loc)); [discriminate|].
      match type of Hrun with run_loop _ _ ?st0 = _ =>
        assert (word_iterator loc st0) as H0 by (eexists; simpl; eauto)
      end.
      destruct (run_loop_elements (word_iterator loc) _
                  (fun i => words_element eng sti loc (StriContainer_get str i))
                  (locate_words_body_element eng sti str loc) _ _ _ H0 Hrun)
        as (_ & Hlen & _). rewrite Hlen. simpl. apply length_replicate.
    + intros i Hi. destruct (lookup_lt_is_Some_2 str i Hi) as [o Ho].
      destruct (stri_locate_words_elements eng sti str loc st Hrun i _ Ho)
        as (x & Hx & Hret).
      exists x. split; trivial. destruct o as [s|]; simpl in Hx.
      * eapply text_element_not_Nil, Hx.
      * injection Hx as <-. discriminate.
Qed.

Lemma X8_locate_words_returns_witness :
  exists st,
    stri_locate_words toy_engine spec_stringi
      [Some "Hello  world"%string; None] "en" = Normal st /\
    length (ret st) = 2%nat.
Proof.
  destruct (X8_locate_words_returns toy_engine spec_stringi
              [Some "Hello  world"%string; None] "en") as ([_ Hret] & _ & Hlen).
  destruct Hret as [st Hst].
  - split; [reflexivity|]. intros s _. split; reflexivity.
  - exists st. split; [exact Hst|]. exact (proj1 (Hlen st Hst)).
Defined.

(** X9: [stri_locate_words] creates its iterator once, before the loop,
    whatever the number of elements (none included); no other call creates
    one.  For an NA element no call to ICU is made, and when the call
    returns the NA matrix is what its index holds. *)
Theorem X9_locate_words_one_iterator (eng : BreakEngine) (sti : Stringi)
    (str : list (option string)) (loc : string) :
  (forall st,
     outcome_state (stri_locate_words eng sti str loc) = Some st ->
     List.filter is_createInstance (calls st) = [call_createInstance None 3] /\
     forall i, str !! i = Some None ->
       forall c, In c (calls st) -> call_index c <> Some i) /\
  (forall st i,
     stri_locate_words eng sti str loc = Normal st ->
     str !! i = Some None -> ret st !! i = Some matrix_NA_INTEGER_1_2).
Proof.
  split.
  - intros st. unfold stri_locate_words.
    destruct (U_FAILURE (createInstance_status eng 3 loc)).
    + simpl. intros [= <-]. simpl. split; trivial.
      intros i _ c [<-|[]]. discriminate.
    + intros H. apply run_loop_words_calls in H as (more & Hm & Hf).
      simpl in Hm. rewrite Hm. split.
      * simpl. f_equal. apply filter_no_createInstance.
        eapply List.Forall_impl; [|exact Hf]. now intros c [? _].
      * intros i Hi c [<-|Hc]; [discriminate|].
        rewrite List.Forall_forall in Hf. destruct (Hf c Hc) as (_ & j & Hj & Hne).
        intros Hci. rewrite Hci in Hj. injection Hj as <-.
        now rewrite (StriContainer_get_lookup _ _ _ Hi) in Hne.
  - intros st i Hrun Hi.
    destruct (stri_locate_words_elements eng sti str loc st Hrun i _ Hi)
      as (x & Hx & Hret).
    simpl in Hx. now injection Hx as <-.
Qed.

Lemma X9_locate_words_one_iterator_witness :
  List.filter is_createInstance
    [call_createInstance None 3; call_utext_openUTF8 1; call_setText 1]
  = [call_createInstance None 3] /\
  forall c, In c [call_createInstance None 3; call_utext_openUTF8 1; call_setText 1] ->
    call_index c <> Some 0%nat.
Proof.
  destruct (proj1 (X9_locate_words_one_iterator toy_engine spec_stringi
                     [None; Some "ab"%string] "en") _ eq_refl) as [Hf Hc].
  split; [exact Hf|]. exact (Hc 0%nat eq_refl).
Defined.



(** X11: when the elements that [stri_locate_boundaries] processes all ask
    for the same kind, at most one iterator is created in the whole call,
    however many elements there are and whether it returns or throws. *)
Theorem X11_same_kind_one_iterator (eng : BreakEngine) (sti : Stringi)
    (str boundary : list (option string)) (loc : string) (k : Z)
    (st : LocState) :
  let vl := stri__recycling_rule sti (length str) (length boundary) in
  (forall i b, In i (vectorize_order sti (length boundary) vl) ->
     ~ passed_over str boundary i ->
     StriContainer_get boundary i = Some b ->
     stri__match_arg sti b boundary_opts = k) ->
  outcome_state (stri_locate_boundaries eng sti str boundary loc) = Some st ->
  (length (List.filter is_createInstance (calls st)) <= 1)%nat.
Proof.
  intros vl Hk Hst. unfold stri_locate_boundaries in Hst.
  apply (run_loop_one_creation eng sti _ _ _ k) in Hst; trivial.
  - destruct Hst as [[_ ->]|[_ ?]]; simpl; lia.
  - left. split; reflexivity.
Qed.

Lemma X11_same_kind_one_iterator_witness :
  exists st,
    outcome_state
      (stri_locate_boundaries toy_engine spec_stringi
         [Some "ab"%string; None; Some "c d"%string] [Some "word"%string] "en")
    = Some st /\
    (length (List.filter is_createInstance (calls st)) <= 1)%nat.
Proof.
  eexists. split; [vm_compute; reflexivity|].
  apply (X11_same_kind_one_iterator toy_engine spec_stringi
           [Some "ab"%string; None; Some "c d"%string] [Some "word"%string]
           "en" 3).
  - intros i b [<-|[<-|[<-|[]]]] _; intros [= <-]; reflexivity.
  - vm_compute. reflexivity.
Defined.

(** X12: with an engine whose boundaries do not go backwards, what
    [stri_locate_words] stores for a non-NA text is made of intervals that
    are ordered and apart: each has its start at or before its end and starts
    no earlier than the one before it ends; and each of them is one of the
    intervals that the loop of [stri_locate_boundaries] collects from the
    same boundaries. *)
Theorem X12_word_intervals_ordered (eng : BreakEngine) (sti : Stringi)
    (str : list (option string)) (loc : string) (st : LocState) (i : nat)
    (s : string) :
  ascending eng ->
  stri_locate_words eng sti str loc = Normal st ->
  str !! i = Some (Some s) ->
  let first := rules_first eng 3 loc s in
  let following := rules_following eng 3 loc s in
  let occurences := words_loop first following in
  ret st !! i =
  Some match occurences with
       | [] => matrix_NA_INTEGER_1_2
       | _ => IntMatrix (UTF8_to_UChar32_index sti s occurences 1 0)
       end /\
  disjoint_from first occurences /\
  incl occurences (boundaries_loop first following).
Proof.
  intros Hasc Hrun Hi first following occurences. split; [|split].
  - destruct (stri_locate_words_elements eng sti str loc st Hrun i _ Hi)
      as (x & Hx & Hret).
    rewrite Hret. f_equal. simpl in Hx. unfold text_element in Hx.
    destruct (U_FAILURE (utext_openUTF8_status eng s)); [discriminate|].
    destruct (U_FAILURE (setText_status eng 3 loc s)); [discriminate|].
    injection Hx as <-. fold first following occurences.
    now destruct occurences.
  - apply words_loop_disjoint; [apply Hasc|lia].
  - apply words_loop_incl.
Qed.

Lemma X12_word_intervals_ordered_witness :
  exists st,
    stri_locate_words toy_engine spec_stringi [Some "Hello  world"%string] "en"
    = Normal st /\
    ret st !! 0%nat = Some (IntMatrix [(1, 5); (8, 12)]) /\
    disjoint_from 0 [(0, 5); (7, 12)] /\
    incl [(0, 5); (7, 12)] [(0, 5); (5, 7); (7, 12)].
Proof.
  eexists. split; [vm_compute; reflexivity|].
  exact (X12_word_intervals_ordered toy_engine spec_stringi
           [Some "Hello  world"%string] "en" _ 0%nat "Hello  world"%string
           toy_engine_ascending eq_refl eq_refl).
Defined.

(** X13: [stri_locate_boundaries] returns exactly when every element its
    loop visits either is passed over (NA text, NA kind or empty text) or
    has a label that [stri__match_arg] maps to one of the four kinds and for
    which no call to ICU fails (creating the iterator, opening the text,
    [setText]). *)
Theorem X13_locate_boundaries_returns (eng : BreakEngine) (sti : Stringi)
    (str boundary : list (option string)) (loc : string) :
  let vl := stri__recycling_rule sti (length str) (length boundary) in
  (exists st, stri_locate_boundaries eng sti str boundary loc = Normal st) <->
  forall i, In i (vectorize_order sti (length boundary) vl) ->
    processed_well eng sti str boundary loc i.
Proof.
  intros vl. split.
  - intros [st Hrun] i Hi. apply boundaries_element_value.
    unfold stri_locate_boundaries in Hrun.
    destruct (run_loop_elements (iterator_for eng loc) _ _
                (locate_boundaries_body_element eng sti str boundary loc)
                _ _ _ (fresh_state_iterator eng loc _) Hrun) as (_ & _ & Hin & _).
    destruct (Hin i Hi) as (x & Hx & _). eauto.
  - intros Hall. unfold stri_locate_boundaries.
    apply (run_loop_normal (iterator_for eng loc) _
             (fun i => boundaries_element eng sti loc (StriContainer_get str i)
                         (StriContainer_get boundary i))).
    + apply locate_boundaries_body_element.
    + apply fresh_state_iterator.
    + intros i Hi. apply boundaries_element_value, Hall, Hi.
Qed.

Lemma X13_locate_boundaries_returns_witness :
  exists st,
    stri_locate_boundaries toy_engine spec_stringi
      [Some "ab cd"%string; None] [Some "word"%string; Some "bogus"%string] "en"
    = Normal st.
Proof.
  apply (proj2 (X13_locate_boundaries_returns toy_engine spec_stringi
                  [Some "ab cd"%string; None]
                  [Some "word"%string; Some "bogus"%string] "en")).
  intros i [<-|[<-|[]]].
  - right. exists "ab cd"%string, "word"%string.
    split; [reflexivity|]. split; [reflexivity|].
    split; [vm_compute; discriminate|]. repeat split; reflexivity.
  - left. left. reflexivity.
Defined.
